(** * OMRA agent coordination core: scheduler, communication, executor, decision parser

    A shallow embedding of the coordination substrate of the OMRA backend
    ([backend/agents/scheduler.py], [communication.py], [executor.py] and
    [decision_engine.py]) together with the properties established about it.

    Conventions of the embedding.
    - Python dictionaries that are only looked up by key are [gmap]s; the
      agent directory, whose iteration order is observable, is an
      insertion-ordered association list.
    - Clock readings ([datetime.now()], [time.time()]) are integers in the
      scheduler's time unit and are passed to the operation that reads them.
    - An [await] is a point where other operations may run: a coroutine is
      split into the atomic pieces between its awaits.
    - External collaborators (the agent's [run], action handlers, message
      handlers, completion callbacks) are represented by their outcome. *)

From stdpp Require Import gmap strings list fin_maps pretty.
From Stdlib Require Import ZArith QArith Ascii.

Local Open Scope Z_scope.

(** ** Types shared by the components ([backend/agents/core.py]) *)

Module Core.

Inductive AgentType := EXECUTIVE | MANAGER | TASK.

#[export] Instance AgentType_eq_dec : EqDecision AgentType.
Proof. solve_decision. Defined.

(** [AgentType.value] *)
Definition AgentType_value (ty : AgentType) : string :=
  match ty with
  | EXECUTIVE => "executive"
  | MANAGER => "manager"
  | TASK => "task"
  end.

End Core.

(** ** The task scheduler ([backend/agents/scheduler.py]) *)

Module Scheduler.
Import Core.

Inductive TaskPriority := LOW | MEDIUM | HIGH | CRITICAL.

Definition priority_value (p : TaskPriority) : Z :=
  match p with
  | LOW => 3
  | MEDIUM => 2
  | HIGH => 1
  | CRITICAL => 0
  end.

Inductive TaskStatus :=
  PENDING | ASSIGNED | IN_PROGRESS | COMPLETED | FAILED | CANCELLED.

#[export] Instance TaskPriority_eq_dec : EqDecision TaskPriority.
Proof. solve_decision. Defined.

#[export] Instance TaskStatus_eq_dec : EqDecision TaskStatus.
Proof. solve_decision. Defined.

(** [class Task(BaseModel)].  [retry_count] and [max_retries] are Python
    ints; payloads are kept as opaque strings. *)
Record Task := mkTask {
  task_id : string;
  title : string;
  description : string;
  priority : TaskPriority;
  status : TaskStatus;
  assigned_agent_id : option string;
  created_at : Z;
  updated_at : Z;
  scheduled_for : option Z;
  completed_at : option Z;
  parent_task_id : option string;
  subtask_ids : list string;
  input_data : string;
  output_data : option (string * string);
  retry_count : Z;
  max_retries : Z;
  dependencies : list string;
  required_agent_type : option AgentType;
  timeout_seconds : Z
}.

(** Field assignments [task.f = v]. *)
Definition set_status (v : TaskStatus) (t : Task) : Task :=
  mkTask (task_id t) (title t) (description t) (priority t) v
    (assigned_agent_id t) (created_at t) (updated_at t) (scheduled_for t)
    (completed_at t) (parent_task_id t) (subtask_ids t) (input_data t)
    (output_data t) (retry_count t) (max_retries t) (dependencies t)
    (required_agent_type t) (timeout_seconds t).

Definition set_assigned_agent_id (v : option string) (t : Task) : Task :=
  mkTask (task_id t) (title t) (description t) (priority t) (status t)
    v (created_at t) (updated_at t) (scheduled_for t)
    (completed_at t) (parent_task_id t) (subtask_ids t) (input_data t)
    (output_data t) (retry_count t) (max_retries t) (dependencies t)
    (required_agent_type t) (timeout_seconds t).

Definition set_updated_at (v : Z) (t : Task) : Task :=
  mkTask (task_id t) (title t) (description t) (priority t) (status t)
    (assigned_agent_id t) (created_at t) v (scheduled_for t)
    (completed_at t) (parent_task_id t) (subtask_ids t) (input_data t)
    (output_data t) (retry_count t) (max_retries t) (dependencies t)
    (required_agent_type t) (timeout_seconds t).

Definition set_scheduled_for (v : option Z) (t : Task) : Task :=
  mkTask (task_id t) (title t) (description t) (priority t) (status t)
    (assigned_agent_id t) (created_at t) (updated_at t) v
    (completed_at t) (parent_task_id t) (subtask_ids t) (input_data t)
    (output_data t) (retry_count t) (max_retries t) (dependencies t)
    (required_agent_type t) (timeout_seconds t).

Definition set_completed_at (v : option Z) (t : Task) : Task :=
  mkTask (task_id t) (title t) (description t) (priority t) (status t)
    (assigned_agent_id t) (created_at t) (updated_at t) (scheduled_for t)
    v (parent_task_id t) (subtask_ids t) (input_data t)
    (output_data t) (retry_count t) (max_retries t) (dependencies t)
    (required_agent_type t) (timeout_seconds t).

Definition set_subtask_ids (v : list string) (t : Task) : Task :=
  mkTask (task_id t) (title t) (description t) (priority t) (status t)
    (assigned_agent_id t) (created_at t) (updated_at t) (scheduled_for t)
    (completed_at t) (parent_task_id t) v (input_data t)
    (output_data t) (retry_count t) (max_retries t) (dependencies t)
    (required_agent_type t) (timeout_seconds t).

Definition set_output_data (v : option (string * string)) (t : Task) : Task :=
  mkTask (task_id t) (title t) (description t) (priority t) (status t)
    (assigned_agent_id t) (created_at t) (updated_at t) (scheduled_for t)
    (completed_at t) (parent_task_id t) (subtask_ids t) (input_data t)
    v (retry_count t) (max_retries t) (dependencies t)
    (required_agent_type t) (timeout_seconds t).

Definition set_retry_count (v : Z) (t : Task) : Task :=
  mkTask (task_id t) (title t) (description t) (priority t) (status t)
    (assigned_agent_id t) (created_at t) (updated_at t) (scheduled_for t)
    (completed_at t) (parent_task_id t) (subtask_ids t) (input_data t)
    (output_data t) v (max_retries t) (dependencies t)
    (required_agent_type t) (timeout_seconds t).

(** *** The priority queue

    [task_queue] is a [heapq] of tuples [(priority, timestamp, task_id)].
    The scheduler only ever reads [task_queue[0]], pushes and pops, so the
    heap is kept here as the list of its entries in increasing tuple
    order: [task_queue[0]] is the head and [heappop] drops it. *)

Definition QueueEntry : Type := Z * Z * string.

(** Python's tuple comparison [e1 < e2]. *)
Definition entry_ltb (e1 e2 : QueueEntry) : bool :=
  let '(p1, t1, i1) := e1 in
  let '(p2, t2, i2) := e2 in
  (p1 <? p2) || ((p1 =? p2) && ((t1 <? t2) || ((t1 =? t2) && String.ltb i1 i2))).

Fixpoint heappush (q : list QueueEntry) (e : QueueEntry) : list QueueEntry :=
  match q with
  | [] => [e]
  | x :: q' => if entry_ltb e x then e :: x :: q' else x :: heappush q' e
  end.

Definition heappop (q : list QueueEntry) : list QueueEntry := tail q.

(** *** Agent pools: [available_agents], one list of agent ids per tier *)

Record Pools := mkPools {
  executive_pool : list string;
  manager_pool : list string;
  task_pool : list string
}.

Definition pool (ty : AgentType) (p : Pools) : list string :=
  match ty with
  | EXECUTIVE => executive_pool p
  | MANAGER => manager_pool p
  | TASK => task_pool p
  end.

Definition set_pool (ty : AgentType) (l : list string) (p : Pools) : Pools :=
  match ty with
  | EXECUTIVE => mkPools l (manager_pool p) (task_pool p)
  | MANAGER => mkPools (executive_pool p) l (task_pool p)
  | TASK => mkPools (executive_pool p) (manager_pool p) l
  end.

(** [list.remove(x)]: drops the first occurrence; [None] stands for the
    [ValueError] raised when [x] is not in the list. *)
Fixpoint list_remove (x : string) (l : list string) : option (list string) :=
  match l with
  | [] => None
  | y :: l' => if decide (x = y) then Some l' else cons y <$> list_remove x l'
  end.

(** [agent_id = available[0]; available.remove(agent_id)] on a non-empty
    pool. *)
Definition take_first (ty : AgentType) (p : Pools) : option (string * Pools) :=
  match pool ty p with
  | [] => None
  | a :: rest => Some (a, set_pool ty rest p)
  end.

(** The final loop of [_find_available_agent]:
    [for agent_type in [EXECUTIVE, MANAGER, TASK]]. *)
Fixpoint first_of_tiers (tiers : list AgentType) (p : Pools) : option (string * Pools) :=
  match tiers with
  | [] => None
  | ty :: tiers' =>
      match take_first ty p with
      | Some r => Some r
      | None => first_of_tiers tiers' p
      end
  end.

(** [TaskScheduler._find_available_agent]: the chosen agent id, if any, and
    the pools after it was taken out. *)
Definition _find_available_agent (t : Task) (p : Pools) : option (string * Pools) :=
  match required_agent_type t with
  | Some ty => take_first ty p
  | None =>
      let fallback := first_of_tiers [EXECUTIVE; MANAGER; TASK] p in
      match priority t with
      | CRITICAL | HIGH =>
          match take_first EXECUTIVE p with Some r => Some r | None => fallback end
      | MEDIUM =>
          match take_first MANAGER p with Some r => Some r | None => fallback end
      | LOW =>
          match take_first TASK p with Some r => Some r | None => fallback end
      end
  end.

(** *** Scheduler state

    [tasks], [active_tasks], [agents] and [task_callbacks] are the
    dictionaries of [TaskScheduler.__init__].  A task object is shared by
    reference between [tasks] and the coroutine processing it; task ids are
    unique (each id is submitted once), so the object a coroutine works on is
    the table entry of its id and is represented by that entry.

    [process_tasks] holds the [asyncio] tasks created for [_process_task]
    (the futures stored in [active_tasks]): [Spawned] until the coroutine
    first runs, [Awaiting] while it is suspended in [await agent.run(...)],
    with [must_cancel] set once [future.cancel()] was requested.  A
    completion callback is represented by whether it raises, and
    [callback_log] records the ids whose callback was invoked. *)

Inductive Coroutine :=
| Spawned (agent_id : string)
| Awaiting (agent_id : string) (agent_type : AgentType) (must_cancel : bool).

Record State := mkState {
  task_queue : list QueueEntry;
  tasks : gmap string Task;
  active_tasks : gmap string string;
  agents : gmap string AgentType;
  available_agents : Pools;
  task_callbacks : gmap string bool;
  tasks_completed : Z;
  tasks_failed : Z;
  process_tasks : gmap string Coroutine;
  callback_log : list string
}.

Definition set_task_queue (v : list QueueEntry) (s : State) : State :=
  mkState v (tasks s) (active_tasks s) (agents s) (available_agents s)
    (task_callbacks s) (tasks_completed s) (tasks_failed s) (process_tasks s)
    (callback_log s).

Definition set_tasks (v : gmap string Task) (s : State) : State :=
  mkState (task_queue s) v (active_tasks s) (agents s) (available_agents s)
    (task_callbacks s) (tasks_completed s) (tasks_failed s) (process_tasks s)
    (callback_log s).

Definition set_active_tasks (v : gmap string string) (s : State) : State :=
  mkState (task_queue s) (tasks s) v (agents s) (available_agents s)
    (task_callbacks s) (tasks_completed s) (tasks_failed s) (process_tasks s)
    (callback_log s).

Definition set_agents (v : gmap string AgentType) (s : State) : State :=
  mkState (task_queue s) (tasks s) (active_tasks s) v (available_agents s)
    (task_callbacks s) (tasks_completed s) (tasks_failed s) (process_tasks s)
    (callback_log s).

Definition set_available_agents (v : Pools) (s : State) : State :=
  mkState (task_queue s) (tasks s) (active_tasks s) (agents s) v
    (task_callbacks s) (tasks_completed s) (tasks_failed s) (process_tasks s)
    (callback_log s).

Definition set_task_callbacks (v : gmap string bool) (s : State) : State :=
  mkState (task_queue s) (tasks s) (active_tasks s) (agents s)
    (available_agents s) v (tasks_completed s) (tasks_failed s)
    (process_tasks s) (callback_log s).

Definition set_metrics (completed failed : Z) (s : State) : State :=
  mkState (task_queue s) (tasks s) (active_tasks s) (agents s)
    (available_agents s) (task_callbacks s) completed failed
    (process_tasks s) (callback_log s).

Definition set_process_tasks (v : gmap string Coroutine) (s : State) : State :=
  mkState (task_queue s) (tasks s) (active_tasks s) (agents s)
    (available_agents s) (task_callbacks s) (tasks_completed s)
    (tasks_failed s) v (callback_log s).

Definition set_callback_log (v : list string) (s : State) : State :=
  mkState (task_queue s) (tasks s) (active_tasks s) (agents s)
    (available_agents s) (task_callbacks s) (tasks_completed s)
    (tasks_failed s) (process_tasks s) v.

(** [TaskScheduler.__init__] *)
Definition init : State :=
  mkState [] ∅ ∅ ∅ (mkPools [] [] []) ∅ 0 0 ∅ [].

(** [self.available_agents[ty].append(agent_id)] *)
Definition make_available (ty : AgentType) (agent_id : string) (s : State) : State :=
  set_available_agents
    (set_pool ty (pool ty (available_agents s) ++ [agent_id]) (available_agents s)) s.

(** [self.tasks[task_id].f = v] through the shared task object. *)
Definition update_task (tid : string) (f : Task → Task) (s : State) : State :=
  set_tasks (alter f tid (tasks s)) s.

Definition status_of (tid : string) (s : State) : option TaskStatus :=
  status <$> tasks s !! tid.

(** [TaskScheduler.register_agent] *)
Definition register_agent (agent_id : string) (ty : AgentType) (s : State) : State :=
  make_available ty agent_id (set_agents (<[agent_id := ty]> (agents s)) s).

(** [TaskScheduler.unregister_agent]: the returned flag, or [None] for the
    [ValueError] of [list.remove] on an agent that is not in its pool (the
    state is then untouched). *)
Definition unregister_agent (agent_id : string) (s : State) : option bool * State :=
  match agents s !! agent_id with
  | None => (Some false, s)
  | Some ty =>
      match list_remove agent_id (pool ty (available_agents s)) with
      | None => (None, s)
      | Some l =>
          (Some true,
           set_agents (delete agent_id (agents s))
             (set_available_agents (set_pool ty l (available_agents s)) s))
      end
  end.

(** [TaskScheduler.submit_task]; [callback] is [None] when no callback is
    given. *)
Definition submit_task (t : Task) (callback : option bool) (s : State) : State :=
  let s1 := set_tasks (<[task_id t := t]> (tasks s)) s in
  let s2 := match callback with
            | Some cb => set_task_callbacks (<[task_id t := cb]> (task_callbacks s1)) s1
            | None => s1
            end in
  set_task_queue
    (heappush (task_queue s2) (priority_value (priority t), created_at t, task_id t)) s2.

(** [future.cancel()] when [not future.done()]: a coroutine that has not
    started never runs; a suspended one is resumed with [CancelledError]. *)
Definition cancel_future (tid : string) (s : State) : State :=
  match process_tasks s !! tid with
  | Some (Spawned _) => set_process_tasks (delete tid (process_tasks s)) s
  | Some (Awaiting a ty _) => set_process_tasks (<[tid := Awaiting a ty true]> (process_tasks s)) s
  | None => s
  end.

(** [TaskScheduler.cancel_task] on a task that can be cancelled, up to the
    loop over its subtasks: the future is cancelled and the agent returned
    to its pool when the task is active, then the status is set. *)
Definition cancel_one (now : Z) (tid : string) (s : State) : State :=
  let s1 :=
    match active_tasks s !! tid with
    | Some agent_id =>
        let sa := cancel_future tid s in
        let sb := match agents sa !! agent_id with
                  | Some ty => make_available ty agent_id sa
                  | None => sa
                  end in
        set_active_tasks (delete tid (active_tasks sb)) sb
    | None => s
    end in
  update_task tid (λ t, set_updated_at now (set_status CANCELLED t)) s1.

(** [for subtask_id in task.subtask_ids: await self.cancel_task(subtask_id)] *)
Definition cancel_all (cancel : string → State → option (bool * State))
    (ids : list string) (s : State) : option State :=
  foldl (λ acc subtask_id, sx ← acc; snd <$> cancel subtask_id sx) (Some s) ids.

(** [TaskScheduler.cancel_task].  The recursion over [subtask_ids] is
    bounded by [fuel]; [None] means the bound was hit. *)
Fixpoint cancel_task_rec (fuel : nat) (now : Z) (tid : string) (s : State)
  : option (bool * State) :=
  match fuel with
  | O => None
  | S fuel' =>
      match tasks s !! tid with
      | None => Some (false, s)
      | Some t =>
          if bool_decide (status t = COMPLETED ∨ status t = CANCELLED)
          then Some (false, s)
          else
            s3 ← cancel_all (cancel_task_rec fuel' now) (subtask_ids t)
                   (cancel_one now tid s);
            Some (true, s3)
      end
  end.

(** Tasks that a cancellation can still change: each nested call that
    gets past the guard takes one of them away, so one more unit of fuel
    than there are such tasks is enough. *)
Definition live (s : State) : nat :=
  size (filter (λ kv, ¬ (status kv.2 = COMPLETED ∨ status kv.2 = CANCELLED)) (tasks s)).

Definition cancel_task (now : Z) (tid : string) (s : State) : option (bool * State) :=
  cancel_task_rec (S (live s)) now tid s.

(** The dependency check of the scheduler loop. *)
Definition dependencies_met (ts : gmap string Task) (deps : list string) : bool :=
  forallb (λ dep_id,
             match ts !! dep_id with
             | Some d => bool_decide (status d = COMPLETED)
             | None => false
             end) deps.

Definition all_available (p : Pools) : nat :=
  (length (executive_pool p) + length (manager_pool p) + length (task_pool p))%nat.

(** One iteration of the [while self.running] loop of
    [TaskScheduler._scheduler_loop] at clock reading [now].  The branches
    that sleep leave the state as it is. *)
Definition _scheduler_loop (now : Z) (s : State) : State :=
  match task_queue s with
  | [] => s
  | (priority, scheduled_time, tid) :: _ =>
      if (all_available (available_agents s) =? 0)%nat then s
      else
        match tasks s !! tid with
        | None => set_task_queue (heappop (task_queue s)) s
        | Some task =>
            if negb (bool_decide (status task = PENDING))
            then set_task_queue (heappop (task_queue s)) s
            else if match scheduled_for task with
                    | Some sf => now <? sf
                    | None => false
                    end
            then s
            else if negb (dependencies_met (tasks s) (dependencies task))
            then set_task_queue
                   (heappush (heappop (task_queue s)) (priority, now + 5, tid)) s
            else
              match _find_available_agent task (available_agents s) with
              | None => s
              | Some (agent_id, pools') =>
                  let s1 := set_available_agents pools' s in
                  if bool_decide (agent_id = "")
                  then s1
                  else
                    let s2 := set_task_queue (heappop (task_queue s1)) s1 in
                    let s3 := update_task tid
                                (λ t, set_updated_at now (set_status ASSIGNED t)) s2 in
                    let s4 := set_process_tasks
                                (<[tid := Spawned agent_id]> (process_tasks s3)) s3 in
                    set_active_tasks (<[tid := agent_id]> (active_tasks s4)) s4
              end
        end
  end.

(** How [await agent.run(messages)] (and the tool-call round trip) ends. *)
Inductive RunOutcome :=
| RunReturned (content model : string)
| RunCancelled
| RunRaised.

(** [_process_task] up to its first [await]; [None] is the [KeyError] of
    [self.tasks[task_id]] or [self.agents[agent_id]]. *)
Definition process_task_begin (tid agent_id : string) (now : Z) (s : State)
  : option (AgentType * State) :=
  match tasks s !! tid, agents s !! agent_id with
  | Some _, Some ty =>
      Some (ty, update_task tid
                  (λ t, set_updated_at now
                          (set_assigned_agent_id (Some agent_id)
                             (set_status IN_PROGRESS t))) s)
  | _, _ => None
  end.

(** The [except Exception] branch of [_process_task] on the task object:
    the task afterwards and, for a retry, the priority and timestamp of the
    queue entry pushed for it. *)
Definition on_failure (now : Z) (t : Task) : Task * option (Z * Z) :=
  let t1 := set_updated_at now (set_status FAILED t) in
  if retry_count t1 <? max_retries t1 then
    let t2 := set_retry_count (retry_count t1 + 1) t1 in
    let t3 := set_status PENDING t2 in
    let delay := 2 ^ retry_count t3 in
    let t4 := set_scheduled_for (Some (now + delay)) t3 in
    (t4, Some (priority_value (priority t4), now + delay))
  else (t1, None).

Definition is_final (st : TaskStatus) : bool :=
  match st with
  | COMPLETED | FAILED | CANCELLED => true
  | _ => false
  end.

(** The end of the [finally] block of [_process_task]: the completion
    callback is called when one is registered and the status is final; it
    is removed from [task_callbacks] unless it raised. *)
Definition invoke_callback (tid : string) (s : State) : State :=
  match (task_callbacks s !! tid : option bool), status_of tid s with
  | Some raises, Some st =>
      if is_final st then
        let s' := set_callback_log (callback_log s ++ [tid]) s in
        if raises then s'
        else set_task_callbacks (delete tid (task_callbacks s')) s'
      else s
  | _, _ => s
  end.

(** [_process_task] from the point where [await agent.run(...)] resolves:
    the [try] body or an [except] branch, then the [finally] block. *)
Definition process_task_end (tid agent_id : string) (ty : AgentType)
    (outcome : RunOutcome) (now : Z) (s : State) : State :=
  let s1 :=
    match outcome with
    | RunReturned content model =>
        update_task tid
          (λ t, set_updated_at now
                  (set_completed_at (Some now)
                     (set_status COMPLETED
                        (set_output_data (Some (content, model)) t)))) s
    | RunCancelled =>
        update_task tid (λ t, set_updated_at now (set_status CANCELLED t)) s
    | RunRaised =>
        match tasks s !! tid with
        | Some t =>
            let '(t', pushed) := on_failure now t in
            let sq := match pushed with
                      | Some (p, ts) =>
                          set_task_queue (heappush (task_queue s) (p, ts, tid)) s
                      | None => s
                      end in
            set_tasks (<[tid := t']> (tasks sq)) sq
        | None => s
        end
    end in
  let s2 := make_available ty agent_id s1 in
  let s3 := set_active_tasks (delete tid (active_tasks s2)) s2 in
  let s4 := match outcome with
            | RunReturned _ _ => set_metrics (tasks_completed s3 + 1) (tasks_failed s3) s3
            | _ => set_metrics (tasks_completed s3) (tasks_failed s3 + 1) s3
            end in
  invoke_callback tid s4.


(** *** Operations of the scheduler as transitions *)

Inductive Op :=
| OpRegisterAgent (agent_id : string) (ty : AgentType)
| OpUnregisterAgent (agent_id : string)
| OpSubmit (t : Task) (callback : option bool)
| OpCancel (tid : string) (now : Z)
| OpLoop (now : Z)
| OpBegin (tid : string) (now : Z)
| OpResume (tid : string) (outcome : RunOutcome) (now : Z).

(** [OpBegin] runs a spawned coroutine up to its [await]; [OpResume]
    resolves the [await] of a suspended one, with [CancelledError] when its
    cancellation was requested.  Both do nothing when no such coroutine
    exists. *)
Definition step (op : Op) (s : State) : State :=
  match op with
  | OpRegisterAgent a ty => register_agent a ty s
  | OpUnregisterAgent a => (unregister_agent a s).2
  | OpSubmit t cb => submit_task t cb s
  | OpCancel tid now =>
      match cancel_task now tid s with
      | Some (_, s') => s'
      | None => s
      end
  | OpLoop now => _scheduler_loop now s
  | OpBegin tid now =>
      match process_tasks s !! tid with
      | Some (Spawned agent_id) =>
          match process_task_begin tid agent_id now s with
          | Some (ty, s') =>
              set_process_tasks (<[tid := Awaiting agent_id ty false]> (process_tasks s')) s'
          | None => set_process_tasks (delete tid (process_tasks s)) s
          end
      | _ => s
      end
  | OpResume tid outcome now =>
      match process_tasks s !! tid with
      | Some (Awaiting agent_id ty must_cancel) =>
          let s' := set_process_tasks (delete tid (process_tasks s)) s in
          process_task_end tid agent_id ty
            (if must_cancel then RunCancelled else outcome) now s'
      | _ => s
      end
  end.

Definition run (ops : list Op) (s : State) : State :=
  foldl (λ acc op, step op acc) s ops.

End Scheduler.

(** ** Insertion-ordered dictionaries

    A Python [dict] whose iteration order is used: the entries in insertion
    order, one per key. *)

Module Dict.

Abbreviation dict V := (list (string * V)).

Fixpoint get {V} (k : string) (d : dict V) : option V :=
  match d with
  | [] => None
  | (k', v) :: d' => if decide (k = k') then Some v else get k d'
  end.

(** [d[k] = v]: an existing key keeps its place. *)
Fixpoint set {V} (k : string) (v : V) (d : dict V) : dict V :=
  match d with
  | [] => [(k, v)]
  | (k', v') :: d' =>
      if decide (k = k') then (k, v) :: d' else (k', v') :: set k v d'
  end.

(** [del d[k]] *)
Fixpoint del {V} (k : string) (d : dict V) : dict V :=
  match d with
  | [] => []
  | (k', v') :: d' => if decide (k = k') then d' else (k', v') :: del k d'
  end.

Definition keys {V} (d : dict V) : list string := d.*1.

(** [k in d] *)
Definition mem {V} (k : string) (d : dict V) : bool := bool_decide (k ∈ keys d).

End Dict.

(** ** The communication interface ([backend/agents/communication.py])

    The event bus is an external collaborator: the events the interface
    creates carry nothing back and are left out.  A send is taken as one
    step, with no other operation of the interface run at its awaits. *)

Module Communication.
Import Core.

Inductive MessageType :=
  REQUEST | RESPONSE | NOTIFICATION | STATUS | ERROR | SYSTEM | BROADCAST.

#[export] Instance MessageType_eq_dec : EqDecision MessageType.
Proof. solve_decision. Defined.

(** [class AgentMessage(BaseModel)]; [content] and [metadata] are opaque. *)
Record AgentMessage := mkMessage {
  message_id : string;
  type : MessageType;
  sender : string;
  recipients : list string;
  subject : string;
  content : string;
  in_reply_to : option string;
  conversation_id : option string;
  timestamp : Z;
  priority : Z;
  ttl : option Z;
  requires_acknowledgment : bool
}.

Definition set_recipients (v : list string) (m : AgentMessage) : AgentMessage :=
  mkMessage (message_id m) (type m) (sender m) v (subject m) (content m)
    (in_reply_to m) (conversation_id m) (timestamp m) (priority m) (ttl m)
    (requires_acknowledgment m).

Definition set_conversation_id (v : option string) (m : AgentMessage) : AgentMessage :=
  mkMessage (message_id m) (type m) (sender m) (recipients m) (subject m)
    (content m) (in_reply_to m) v (timestamp m) (priority m) (ttl m)
    (requires_acknowledgment m).

(** [class AgentConversation(BaseModel)]; [departed_agents] is the list
    kept under that key of [metadata]. *)
Record AgentConversation := mkConversation {
  conv_id : string;
  participants : list string;
  conv_subject : string;
  conv_messages : list string;
  conv_status : string;
  conv_created_at : Z;
  conv_updated_at : Z;
  departed_agents : list (string * Z)
}.

(** An entry of [agent_directory]. *)
Record AgentInfo := mkAgentInfo {
  agent_type : string;
  capabilities : list string;
  agent_status : string;
  registered_at : Z
}.

(** A message handler, by what a call of it does. *)
Inductive Handler := HandlerReturns | HandlerRaises.

(** A send started with [asyncio.create_task] and not run yet: the
    arguments of [create_and_send_message]. *)
Record Draft := mkDraft {
  draft_type : MessageType;
  draft_sender : string;
  draft_recipients : list string;
  draft_subject : string;
  draft_content : string;
  draft_conversation_id : option string
}.

(** [deliveries] records the handler calls [(recipient, message id)];
    [uuid_next] counts the ids drawn from the [uuid4] generator. *)
Record State := mkState {
  messages : gmap string AgentMessage;
  conversations : Dict.dict AgentConversation;
  message_handlers : gmap string Handler;
  agent_directory : Dict.dict AgentInfo;
  active_conversations : gset string;
  deliveries : list (string * string);
  spawned : list Draft;
  uuid_next : nat
}.

Definition set_messages (v : gmap string AgentMessage) (s : State) : State :=
  mkState v (conversations s) (message_handlers s) (agent_directory s)
    (active_conversations s) (deliveries s) (spawned s) (uuid_next s).

Definition set_conversations (v : Dict.dict AgentConversation) (s : State) : State :=
  mkState (messages s) v (message_handlers s) (agent_directory s)
    (active_conversations s) (deliveries s) (spawned s) (uuid_next s).

Definition set_message_handlers (v : gmap string Handler) (s : State) : State :=
  mkState (messages s) (conversations s) v (agent_directory s)
    (active_conversations s) (deliveries s) (spawned s) (uuid_next s).

Definition set_agent_directory (v : Dict.dict AgentInfo) (s : State) : State :=
  mkState (messages s) (conversations s) (message_handlers s) v
    (active_conversations s) (deliveries s) (spawned s) (uuid_next s).

Definition set_active_conversations (v : gset string) (s : State) : State :=
  mkState (messages s) (conversations s) (message_handlers s)
    (agent_directory s) v (deliveries s) (spawned s) (uuid_next s).

Definition set_deliveries (v : list (string * string)) (s : State) : State :=
  mkState (messages s) (conversations s) (message_handlers s)
    (agent_directory s) (active_conversations s) v (spawned s) (uuid_next s).

Definition set_spawned (v : list Draft) (s : State) : State :=
  mkState (messages s) (conversations s) (message_handlers s)
    (agent_directory s) (active_conversations s) (deliveries s) v (uuid_next s).

Definition set_uuid_next (v : nat) (s : State) : State :=
  mkState (messages s) (conversations s) (message_handlers s)
    (agent_directory s) (active_conversations s) (deliveries s) (spawned s) v.

(** [CommunicationInterface.__init__] *)
Definition init : State := mkState ∅ [] ∅ [] ∅ [] [] 0.

Section WithUuid.

(** [str(uuid.uuid4())]: the n-th id the generator gives. *)
Variable uuid4 : nat → string.

Definition fresh_uuid (s : State) : string * State :=
  (uuid4 (uuid_next s), set_uuid_next (S (uuid_next s)) s).

(** [asyncio.create_task(...)] of a send. *)
Definition spawn (d : Draft) (s : State) : State :=
  set_spawned (spawned s ++ [d]) s.

(** [_broadcast_system_message] *)
Definition _broadcast_system_message (message sender : string) (s : State) : State :=
  spawn (mkDraft BROADCAST sender [] "System Broadcast" message None) s.

(** [_send_system_message_to_conversation] *)
Definition _send_system_message_to_conversation
    (conversation_id message sender : string) (s : State) : State :=
  match Dict.get conversation_id (conversations s) with
  | None => s
  | Some conversation =>
      let recipients :=
        filter (λ p, Dict.mem p (agent_directory s) = true) (participants conversation) in
      match recipients with
      | [] => s
      | _ => spawn (mkDraft SYSTEM sender recipients "System Message" message
                      (Some conversation_id)) s
      end
  end.

(** [register_agent]; [message_handler] is [None] when none is given. *)
Definition register_agent (agent_id : string) (ty : AgentType)
    (caps : list string) (message_handler : option Handler) (now : Z)
    (s : State) : State :=
  let info := mkAgentInfo (AgentType_value ty) caps "active" now in
  let s1 := set_agent_directory (Dict.set agent_id info (agent_directory s)) s in
  let s2 := match message_handler with
            | Some h => set_message_handlers (<[agent_id := h]> (message_handlers s1)) s1
            | None => s1
            end in
  _broadcast_system_message "agent_registered" agent_id s2.

(** The body of the loop of [unregister_agent] over the conversations the
    agent takes part in. *)
Definition depart (agent_id : string) (now : Z) (conversation : AgentConversation)
    (close : bool) : AgentConversation :=
  mkConversation (conv_id conversation) (participants conversation)
    (conv_subject conversation) (conv_messages conversation)
    (if close then "closed" else conv_status conversation)
    (conv_created_at conversation) now
    (departed_agents conversation ++ [(agent_id, now)]).

(** [remaining_participants] of [unregister_agent] and
    [leave_conversation]. *)
Definition remaining_participants (agent_id : string)
    (conversation : AgentConversation) (s : State) : list string :=
  filter (λ p, p ≠ agent_id ∧ Dict.mem p (agent_directory s) = true)
    (participants conversation).

Definition cleanup_conversation (agent_id : string) (now : Z) (s : State)
    (entry : string * AgentConversation) : State :=
  let '(conversation_id, _) := entry in
  match Dict.get conversation_id (conversations s) with
  | None => s
  | Some conversation =>
      if bool_decide (agent_id ∈ participants conversation) then
        let close :=
          bool_decide (remaining_participants agent_id conversation s = []) in
        let s1 := set_conversations
                    (Dict.set conversation_id (depart agent_id now conversation close)
                       (conversations s)) s in
        let s2 := if close
                  then set_active_conversations
                         (active_conversations s1 ∖ {[conversation_id]}) s1
                  else s1 in
        _send_system_message_to_conversation conversation_id
          "agent_left_conversation" "system" s2
      else s
  end.

(** [unregister_agent] *)
Definition unregister_agent (agent_id : string) (now : Z) (s : State) : State :=
  if negb (Dict.mem agent_id (agent_directory s)) then s
  else
    let s1 := set_agent_directory (Dict.del agent_id (agent_directory s)) s in
    let s2 := set_message_handlers (delete agent_id (message_handlers s1)) s1 in
    let s3 := _broadcast_system_message "agent_unregistered" "system" s2 in
    foldl (cleanup_conversation agent_id now) s3 (conversations s3).

(** A recipient or sender the directory accepts. *)
Definition known (s : State) (a : string) : bool :=
  Dict.mem a (agent_directory s) || bool_decide (a = "system").

(** Python's truth value of an optional string. *)
Definition truthy (o : option string) : option string :=
  match o with
  | Some c => if bool_decide (c = "") then None else Some c
  | None => None
  end.

Definition new_conversation (cid : string) (m : AgentMessage) (now : Z)
  : AgentConversation :=
  mkConversation cid (sender m :: recipients m) (subject m) [message_id m]
    "active" now now [].

(** "Send to all registered agents except the sender". *)
Definition broadcast_recipients (m : AgentMessage) (s : State) : list string :=
  filter (λ a, a ≠ sender m) (Dict.keys (agent_directory s)).

(** The delivery loop: the handler of each recipient that has one is
    called; a handler that raises does not stop the loop. *)
Definition deliver (mid : string) (rs : list string) (s : State) : State :=
  set_deliveries
    (deliveries s ++
       omap (λ r, match message_handlers s !! r with
                  | Some _ => Some (r, mid)
                  | None => None
                  end) rs) s.

(** [send_message] up to the end of the delivery loop: the recipients the
    message was dispatched to and the state, or [None] when the message is
    not sent. *)
Definition send_and_deliver (m : AgentMessage) (now : Z) (s : State)
  : option (list string * AgentMessage * State) :=
  if negb (known s (sender m)) then None
  else
    let m1 := if bool_decide (type m = BROADCAST) then m
              else set_recipients (filter (λ r, known s r = true) (recipients m)) m in
    if negb (bool_decide (type m = BROADCAST)) && bool_decide (recipients m1 = [])
    then None
    else
      let '(m2, s2) :=
        match truthy (conversation_id m1) with
        | Some cid =>
            match Dict.get cid (conversations s) with
            | Some conversation =>
                let conversation' :=
                  mkConversation (conv_id conversation) (participants conversation)
                    (conv_subject conversation)
                    (conv_messages conversation ++ [message_id m1])
                    (conv_status conversation) (conv_created_at conversation) now
                    (departed_agents conversation) in
                (m1, set_conversations (Dict.set cid conversation' (conversations s)) s)
            | None =>
                (m1, set_active_conversations ({[cid]} ∪ active_conversations s)
                       (set_conversations
                          (Dict.set cid (new_conversation cid m1 now) (conversations s)) s))
            end
        | None =>
            let '(cid, s1) := fresh_uuid s in
            (set_conversation_id (Some cid) m1,
             set_active_conversations ({[cid]} ∪ active_conversations s1)
               (set_conversations
                  (Dict.set cid (new_conversation cid m1 now) (conversations s1)) s1))
        end in
      let s3 := set_messages (<[message_id m := m2]> (messages s2)) s2 in
      let rs := if bool_decide (type m = BROADCAST) then broadcast_recipients m s3
                else recipients m2 in
      Some (rs, m2, deliver (message_id m) rs s3).

(** The acknowledgment sent back to the sender for one recipient. *)
Definition ack_message (mid : string) (m : AgentMessage) (now : Z) : AgentMessage :=
  mkMessage mid RESPONSE "system" [sender m]
    ("Acknowledgment for " ++ subject m) "acknowledgment" (Some (message_id m))
    (conversation_id m) now 1 None false.

(** [send_message]: the returned message id ([None] when nothing was
    sent) and the state.  An acknowledgment does not ask for one itself,
    so the nested [send_message] ends after its delivery loop. *)
Definition send_message (m : AgentMessage) (now : Z) (s : State)
  : option string * State :=
  match send_and_deliver m now s with
  | None => (None, s)
  | Some (rs, m', s1) =>
      let s2 :=
        if requires_acknowledgment m' then
          foldl (λ acc recipient,
                   if Dict.mem recipient (agent_directory acc) then
                     let '(mid, acc1) := fresh_uuid acc in
                     match send_and_deliver (ack_message mid m' now) now acc1 with
                     | Some (_, _, acc2) => acc2
                     | None => acc1
                     end
                   else acc) s1 rs
        else s1 in
      (Some (message_id m), s2)
  end.

(** [create_and_send_message] *)
Definition create_and_send_message (d : Draft) (in_reply : option string)
    (now : Z) (s : State) : option string * State :=
  let '(mid, s1) := fresh_uuid s in
  send_message
    (mkMessage mid (draft_type d) (draft_sender d) (draft_recipients d)
       (draft_subject d) (draft_content d) in_reply (draft_conversation_id d)
       now 1 None false) now s1.

(** A spawned send gets to run. *)
Definition run_spawned (now : Z) (s : State) : State :=
  match spawned s with
  | [] => s
  | d :: rest => (create_and_send_message d None now (set_spawned rest s)).2
  end.

(** [create_group_conversation]; [initial_message] is [None] when no
    (or an empty) initial message is given. *)
Definition create_group_conversation (initiator : string) (ps : list string)
    (subj : string) (initial_message : option string) (now : Z) (s : State)
  : option string * State :=
  if negb (Dict.mem initiator (agent_directory s)) then (None, s)
  else
    let valid_participants := filter (λ p, Dict.mem p (agent_directory s) = true) ps in
    match valid_participants with
    | [] => (None, s)
    | _ =>
        let '(cid, s1) := fresh_uuid s in
        let conversation :=
          mkConversation cid (initiator :: valid_participants) subj [] "active" now now [] in
        let s2 := set_active_conversations ({[cid]} ∪ active_conversations s1)
                    (set_conversations (Dict.set cid conversation (conversations s1)) s1) in
        let s3 :=
          match initial_message with
          | Some text =>
              let '(sent, s') :=
                create_and_send_message
                  (mkDraft NOTIFICATION initiator valid_participants subj text (Some cid))
                  None now s2 in
              match truthy sent, Dict.get cid (conversations s') with
              | Some mid, Some c =>
                  if bool_decide (mid ∈ conv_messages c) then s'
                  else
                    set_conversations
                      (Dict.set cid
                         (mkConversation (conv_id c) (participants c) (conv_subject c)
                            (conv_messages c ++ [mid]) (conv_status c)
                            (conv_created_at c) (conv_updated_at c) (departed_agents c))
                         (conversations s')) s'
              | _, _ => s'
              end
          | None => s2
          end in
        (Some cid,
         _send_system_message_to_conversation cid "conversation_created" "system" s3)
    end.

(** [add_participant_to_conversation] *)
Definition add_participant_to_conversation (conversation_id participant_id : string)
    (now : Z) (s : State) : bool * State :=
  match Dict.get conversation_id (conversations s) with
  | None => (false, s)
  | Some conversation =>
      if negb (Dict.mem participant_id (agent_directory s)) then (false, s)
      else if bool_decide (participant_id ∈ participants conversation) then (false, s)
      else
        let conversation' :=
          mkConversation (conv_id conversation)
            (participants conversation ++ [participant_id])
            (conv_subject conversation) (conv_messages conversation)
            (conv_status conversation) (conv_created_at conversation) now
            (departed_agents conversation) in
        (true,
         _send_system_message_to_conversation conversation_id "participant_added"
           "system"
           (set_conversations
              (Dict.set conversation_id conversation' (conversations s)) s))
  end.

(** [leave_conversation] *)
Definition leave_conversation (conversation_id participant_id : string)
    (now : Z) (s : State) : bool * State :=
  match Dict.get conversation_id (conversations s) with
  | None => (false, s)
  | Some conversation =>
      if negb (bool_decide (participant_id ∈ participants conversation))
      then (false, s)
      else
        let s1 := set_conversations
                    (Dict.set conversation_id
                       (depart participant_id now conversation false)
                       (conversations s)) s in
        let s2 := _send_system_message_to_conversation conversation_id
                    "participant_left" "system" s1 in
        if bool_decide (remaining_participants participant_id conversation s2 = [])
        then
          (true,
           set_active_conversations (active_conversations s2 ∖ {[conversation_id]})
             (set_conversations
                (Dict.set conversation_id
                   (depart participant_id now conversation true)
                   (conversations s2)) s2))
        else (true, s2)
  end.

End WithUuid.

End Communication.

(** ** The action executor ([backend/agents/executor.py])

    The awaited execution of a handler -- the handler raced against the
    action's timeout and the cancellation event -- is represented by how it
    ends and how long it took.  Actions run "in parallel" by
    [asyncio.gather] are run one after the other, in list order. *)

Module Executor.

Inductive ActionType :=
  API_CALL | DATABASE_OPERATION | NOTIFICATION | EMAIL | SMS | FILE_OPERATION
| SCHEDULE_TASK | INTEGRATION | CUSTOM.

#[export] Instance ActionType_eq_dec : EqDecision ActionType.
Proof. solve_decision. Defined.

Definition ActionType_index (t : ActionType) : nat :=
  match t with
  | API_CALL => 0 | DATABASE_OPERATION => 1 | NOTIFICATION => 2 | EMAIL => 3
  | SMS => 4 | FILE_OPERATION => 5 | SCHEDULE_TASK => 6 | INTEGRATION => 7
  | CUSTOM => 8
  end%nat.

Definition ActionType_of_index (n : nat) : ActionType :=
  match n with
  | 0 => API_CALL | 1 => DATABASE_OPERATION | 2 => NOTIFICATION | 3 => EMAIL
  | 4 => SMS | 5 => FILE_OPERATION | 6 => SCHEDULE_TASK | 7 => INTEGRATION
  | _ => CUSTOM
  end%nat.

#[export] Instance ActionType_countable : Countable ActionType :=
  inj_countable' ActionType_index ActionType_of_index
    (λ t, match t with
          | API_CALL | DATABASE_OPERATION | NOTIFICATION | EMAIL | SMS
          | FILE_OPERATION | SCHEDULE_TASK | INTEGRATION | CUSTOM => eq_refl
          end).

(** [class Action(BaseModel)]; [parameters] is opaque and [metadata] is a
    list of key/value pairs. *)
Record Action := mkAction {
  action_id : string;
  type : ActionType;
  name : string;
  description : string;
  parameters : string;
  timeout_seconds : Z;
  retryable : bool;
  max_retries : Z;
  dependencies : list string;
  workflow_id : option string;
  task_id : option string;
  created_at : Z;
  metadata : list (string * string)
}.

Definition set_metadata (v : list (string * string)) (a : Action) : Action :=
  mkAction (action_id a) (type a) (name a) (description a) (parameters a)
    (timeout_seconds a) (retryable a) (max_retries a) (dependencies a)
    (workflow_id a) (task_id a) (created_at a) v.

(** [class ActionResult(BaseModel)] *)
Record ActionResult := mkResult {
  result_action_id : string;
  success : bool;
  result : option string;
  error : option string;
  start_time : Z;
  end_time : Z;
  duration_seconds : Z;
  attempts : Z;
  result_metadata : list (string * string)
}.

(** How [await execution_task] ends. *)
Inductive Ending :=
| Returned (value : string)
| TimedOut
| Cancelled
| Raised (message : string).

Record Execution := mkExecution {
  ending : Ending;
  elapsed : Z
}.

(** A registered handler. *)
Abbreviation Handler := (Action → Execution).

Record State := mkState {
  action_handlers : gmap ActionType Handler;
  action_results : gmap string ActionResult;
  active_executions : gset string;
  clock : Z
}.

Definition set_action_handlers (v : gmap ActionType Handler) (s : State) : State :=
  mkState v (action_results s) (active_executions s) (clock s).

Definition set_action_results (v : gmap string ActionResult) (s : State) : State :=
  mkState (action_handlers s) v (active_executions s) (clock s).

Definition set_active_executions (v : gset string) (s : State) : State :=
  mkState (action_handlers s) (action_results s) v (clock s).

(** Time passing: [await] of an execution or of [asyncio.sleep]. *)
Definition advance (d : Z) (s : State) : State :=
  mkState (action_handlers s) (action_results s) (active_executions s) (clock s + d).

(** [register_handler] *)
Definition register_handler (t : ActionType) (h : Handler) (s : State) : State :=
  set_action_handlers (<[t := h]> (action_handlers s)) s.

Section WithFormat.

(** The text an f-string gives for an [ActionType] member (its value or
    its qualified name, depending on the interpreter version). *)
Variable format_type : ActionType → string.

(** The [ActionResult] of the early return of [execute_action]. *)
Definition no_handler_result (a : Action) (now : Z) : ActionResult :=
  mkResult (action_id a) false None
    (Some ("No handler registered for action type: " +:+ format_type (type a)))
    now now 0 1 [].

(** The [finally] block of [execute_action]. *)
Definition finish (a : Action) (started : Z) (ok : bool) (res err : option string)
    (n : Z) (s : State) : ActionResult * State :=
  let s1 := set_active_executions (active_executions s ∖ {[action_id a]}) s in
  let r := mkResult (action_id a) ok res err started (clock s1)
             (clock s1 - started) n
             [("action_type", format_type (type a));
              ("workflow_id", default "None" (workflow_id a));
              ("task_id", default "None" (task_id a))] in
  (r, set_action_results (<[action_id a := r]> (action_results s1)) s1).

(** [retry_action = action.copy(deep=True)] with its two metadata keys
    set. *)
Definition retry_copy (a : Action) (previous_attempts : Z) : Action :=
  set_metadata
    (Dict.set "original_action_id" (action_id a)
       (Dict.set "retry_count" (pretty previous_attempts) (metadata a))) a.

(** The stored result [_retry_action] writes after a successful retry. *)
Definition retried_result (a : Action) (r : ActionResult) (previous_attempts : Z)
    (s : State) : option ActionResult :=
  stored ← action_results s !! action_id a;
  Some (mkResult (action_id a) true (result r) None (start_time stored) (clock s)
          (clock s - start_time stored) (previous_attempts + 1)
          (Dict.set "successful_retry_attempt" (pretty (previous_attempts + 1))
             (Dict.set "retry_success" "True" (result_metadata stored)))).

(** [execute_action], with [_retry_action] unfolded at its call.  [fuel]
    bounds the nesting of retries; [None] means the bound was hit. *)
Fixpoint execute_action (fuel : nat) (a : Action) (s : State)
  : option (ActionResult * State) :=
  match fuel with
  | O => None
  | S fuel' =>
      match action_handlers s !! type a with
      | None => Some (no_handler_result a (clock s), s)
      | Some handler =>
          let started := clock s in
          let s1 := set_active_executions ({[action_id a]} ∪ active_executions s) s in
          let run := handler a in
          let s2 := advance (elapsed run) s1 in
          match ending run with
          | Returned v => Some (finish a started true (Some v) None 1 s2)
          | TimedOut =>
              Some (finish a started false None
                      (Some ("Action timed out after " +:+ pretty (timeout_seconds a)
                             +:+ " seconds")) 1 s2)
          | Cancelled =>
              Some (finish a started false None (Some "Action was cancelled") 1 s2)
          | Raised message =>
              let err := Some ("Action failed: " +:+ message) in
              if retryable a && (1 <? max_retries a) then
                (* retry_success = await self._retry_action(action, attempts) *)
                let s3 := advance (2 ^ 1) s2 in
                '(r, s4) ← execute_action fuel' (retry_copy a 1) s3;
                if success r then
                  match retried_result a r 1 s4 with
                  | Some stored =>
                      let s5 := set_action_results
                                  (<[action_id a := stored]> (action_results s4)) s4 in
                      Some (finish a started true (result stored) None (attempts stored) s5)
                  | None =>
                      (* KeyError inside the except block: the finally block
                         still returns the failure *)
                      Some (finish a started false None err 1 s4)
                  end
                else Some (finish a started false None err 1 s4)
              else Some (finish a started false None err 1 s2)
          end
      end
  end.






End WithFormat.

End Executor.

(** ** Regular expressions as [re] runs them

    Texts are sequences of Unicode code points.  A pattern is matched by
    backtracking: [matches r st] lists the states in which a match of [r]
    started in [st] can end, in the order the backtracking matcher tries
    them, so that the head of the list is the match [re] reports.  The
    fragment covers what the patterns of the decision parser use: one
    capturing group, and repetition of character classes only. *)

Module Regex.

Abbreviation char := N.
Abbreviation text := (list N).

(** A string literal of the source as a text. *)
Definition of_string (s : string) : text :=
  (λ c, N_of_ascii c) <$> String.list_ascii_of_string s.

Definition newline : char := 10%N.

(** [str.isspace] on one code point; it is also the class [\s] of a
    [str] pattern, and what [str.strip] removes. *)
Definition isspace (c : char) : bool :=
  ((9 <=? c) && (c <=? 13) || (28 <=? c) && (c <=? 32) || (c =? 133) || (c =? 160)
   || (c =? 5760) || (8192 <=? c) && (c <=? 8202) || (c =? 8232) || (c =? 8233)
   || (c =? 8239) || (c =? 8287) || (c =? 12288))%N.

(** [.] under [re.DOTALL] *)
Definition any (c : char) : bool := true.

Inductive regex :=
| Str (cs : text)                 (* a literal *)
| Cls (p : char → bool)           (* one character of a class *)
| Bol                             (* ^ *)
| Eol                             (* $ *)
| Seq (r1 r2 : regex)
| Alt (r1 r2 : regex)
| Star (p : char → bool)          (* p*, greedy *)
| StarLazy (p : char → bool)      (* p*?, lazy *)
| Plus (p : char → bool)          (* p+, greedy *)
| Group (r : regex).              (* ( r ), the capturing group 1 *)

(** A position of the matcher: the index reached, the text from there
    on, and what group 1 captured so far. *)
Record mstate := mkM {
  pos : nat;
  rest : text;
  group1 : option text
}.

(** The states after a lazy [p*?]: shortest repetition first. *)
Fixpoint spans (p : char → bool) (n : nat) (l : text) (g : option text)
  : list mstate :=
  mkM n l g ::
  match l with
  | c :: l' => if p c then spans p (S n) l' g else []
  | [] => []
  end.

(** The states after a greedy [p*]: longest repetition first. *)
Fixpoint greedy (p : char → bool) (n : nat) (l : text) (g : option text)
  : list mstate :=
  match l with
  | c :: l' => if p c then greedy p (S n) l' g ++ [mkM n l g] else [mkM n l g]
  | [] => [mkM n l g]
  end.

(** The text left after the literal [cs], when the text starts with it. *)
Fixpoint after_literal (cs l : text) : option text :=
  match cs, l with
  | [], _ => Some l
  | c :: cs', x :: l' => if decide (c = x) then after_literal cs' l' else None
  | _ :: _, [] => None
  end.

Fixpoint matches (r : regex) (st : mstate) : list mstate :=
  match r with
  | Str cs =>
      match after_literal cs (rest st) with
      | Some l' => [mkM (pos st + length cs) l' (group1 st)]
      | None => []
      end
  | Cls p =>
      match rest st with
      | c :: l' => if p c then [mkM (S (pos st)) l' (group1 st)] else []
      | [] => []
      end
  | Bol => if decide (pos st = 0%nat) then [st] else []
  | Eol =>
      match rest st with
      | [] => [st]
      | [c] => if decide (c = newline) then [st] else []
      | _ => []
      end
  | Seq r1 r2 => matches r1 st ≫= matches r2
  | Alt r1 r2 => matches r1 st ++ matches r2 st
  | Star p => greedy p (pos st) (rest st) (group1 st)
  | StarLazy p => spans p (pos st) (rest st) (group1 st)
  | Plus p =>
      match rest st with
      | c :: l' => if p c then greedy p (S (pos st)) l' (group1 st) else []
      | [] => []
      end
  | Group r' =>
      (λ st', mkM (pos st') (rest st')
                (Some (take (pos st' - pos st) (rest st)))) <$> matches r' st
  end.

(** [re.search] from index [n], where the text from [n] on is [l]: the
    end state of the first match at the leftmost index that has one. *)
Fixpoint search_from (r : regex) (n : nat) (l : text) : option mstate :=
  match matches r (mkM n l None) with
  | st :: _ => Some st
  | [] =>
      match l with
      | _ :: l' => search_from r (S n) l'
      | [] => None
      end
  end.

Definition search (r : regex) (t : text) : option mstate := search_from r 0 t.

(** [match.group(1)] *)
Definition group (st : mstate) : text := default [] (group1 st).

(** [re.findall] for a pattern with one group: the captures of the
    successive matches.  Each search resumes where the last match ended
    (one character further after an empty match, which the patterns used
    here never produce); the text being finite, [length t + 1] rounds are
    enough. *)
Fixpoint findall_from (fuel : nat) (r : regex) (n : nat) (l : text) : list text :=
  match fuel with
  | O => []
  | S fuel' =>
      match search_from r n l with
      | None => []
      | Some st =>
          let next := if decide (pos st = n) then S n else pos st in
          group st :: findall_from fuel' r next (drop (next - n) l)
      end
  end.

Definition findall (r : regex) (t : text) : list text :=
  findall_from (S (length t)) r 0 t.

(** [str.strip()] *)
Fixpoint lstrip (t : text) : text :=
  match t with
  | c :: t' => if isspace c then lstrip t' else t
  | [] => []
  end.

Definition strip (t : text) : text := reverse (lstrip (reverse (lstrip t))).

End Regex.

(** ** The decision parser ([backend/agents/decision_engine.py]) *)

Module DecisionEngine.
Import Regex.

(** [class DecisionResult(BaseModel)].  [confidence] is the exact value of
    the decimal numeral (rounding to a binary float is left out);
    [alternatives] and [actions] hold the text under the one key of each
    entry. *)
Record DecisionResult := mkDecision {
  decision_id : string;
  workflow_id : string;
  task_id : option string;
  decision : text;
  confidence : Q;
  reasoning : text;
  alternatives : list text;
  actions : list text;
  decision_type : string
}.

(** The fields of [DecisionContext] the parser reads; [decision_type]
    is [context.metadata.get("decision_type", "general")]. *)
Record DecisionContext := mkContext {
  ctx_workflow_id : string;
  ctx_task_id : option string;
  ctx_decision_type : string
}.

(** [(?:^|\n)\s*] *)
Definition line_start : regex := Seq (Alt Bol (Str [newline])) (Star isspace).

(** [(?:^|\n)\s*\*\*NAME:\*\*\s*(.*?)(?:\n\s*\*\*|$)] under [re.DOTALL] *)
Definition section_pattern (marker : text) : regex :=
  Seq line_start
    (Seq (Str marker)
       (Seq (Star isspace)
          (Seq (Group (StarLazy any))
             (Alt (Seq (Str [newline]) (Seq (Star isspace) (Str (of_string "**"))))
                Eol)))).

Definition decision_marker : text := of_string "**Decision:**".
Definition confidence_marker : text := of_string "**Confidence:**".
Definition reasoning_marker : text := of_string "**Reasoning:**".
Definition alternatives_marker : text := of_string "**Alternatives Considered:**".
Definition actions_marker : text := of_string "**Actions:**".

Section WithDigits.

(** The Unicode database's decimal digits: the value of a code point of
    category Nd.  [\d] matches them and [float] reads them. *)
Variable digit_value : char → option N.

Definition isdigit (c : char) : bool := bool_decide (is_Some (digit_value c)).

(** [(?:^|\n)\s*\*\*Confidence:\*\*\s*(0\.\d+|1\.0|1|0)] *)
Definition confidence_pattern : regex :=
  Seq line_start
    (Seq (Str confidence_marker)
       (Seq (Star isspace)
          (Group
             (Alt (Seq (Str (of_string "0.")) (Plus isdigit))
                (Alt (Str (of_string "1.0"))
                   (Alt (Str (of_string "1")) (Str (of_string "0")))))))).

(** [(?:^|\n)\s*-\s*(.*?)(?:\n|$)] under [re.DOTALL] *)
Definition alternative_item : regex :=
  Seq line_start
    (Seq (Str (of_string "-"))
       (Seq (Star isspace)
          (Seq (Group (StarLazy any)) (Alt (Str [newline]) Eol)))).

(** [(?:^|\n)\s*\d+\.\s*(.*?)(?:\n|$)] under [re.DOTALL] *)
Definition action_item : regex :=
  Seq line_start
    (Seq (Plus isdigit)
       (Seq (Str (of_string "."))
          (Seq (Star isspace)
             (Seq (Group (StarLazy any)) (Alt (Str [newline]) Eol))))).

(** The value of a run of decimal digits, read as an integer. *)
Fixpoint digits_value (acc : N) (t : text) : option N :=
  match t with
  | [] => Some acc
  | c :: t' =>
      match digit_value c with
      | Some d => digits_value (10 * acc + d)%N t'
      | None => None
      end
  end.

(** The numeral split at its first full stop. *)
Fixpoint split_at_dot (t : text) : text * option text :=
  match t with
  | [] => ([], None)
  | c :: t' =>
      if decide (c = 46%N) then ([], Some t')
      else let '(a, b) := split_at_dot t' in (c :: a, b)
  end.

(** [float(...)] on the numerals the confidence pattern captures, digits
    or digits.digits; [None] is [ValueError]. *)
Definition float_of (t : text) : option Q :=
  match split_at_dot t with
  | ([], _) => None
  | (int_part, None) => n ← digits_value 0 int_part; Some (Z.of_N n # 1)
  | (_, Some []) => None
  | (int_part, Some frac) =>
      n ← digits_value 0 (int_part ++ frac);
      Some (Z.of_N n # Pos.pow 10 (Pos.of_nat (length frac)))
  end.

(** [max(0, min(1, confidence))] *)
Definition clamp (q : Q) : Q :=
  let m := if Qle_bool 1 q then 1%Q else q in
  if Qle_bool m 0 then 0%Q else m.

(** The text of a section: [match.group(1).strip()]. *)
Definition section_text (marker t : text) : option text :=
  (λ st, strip (group st)) <$> search (section_pattern marker) t.

(** The stripped, non-empty items of a list section. *)
Definition list_items (item : regex) (marker t : text) : list text :=
  match section_text marker t with
  | Some body => filter (λ x, x ≠ []) (strip <$> findall item body)
  | None => []
  end.

(** [DecisionEngine._parse_decision_from_response]; [now] is
    [time.time()]. *)
Definition _parse_decision_from_response (response_text : text)
    (context : DecisionContext) (now : Z) : DecisionResult :=
  let decision := default [] (section_text decision_marker response_text) in
  let confidence :=
    match search confidence_pattern response_text with
    | Some st =>
        match float_of (group st) with
        | Some q => clamp q
        | None => (1 # 2)%Q
        end
    | None => (1 # 2)%Q
    end in
  let reasoning := default [] (section_text reasoning_marker response_text) in
  let alternatives := list_items alternative_item alternatives_marker response_text in
  let actions := list_items action_item actions_marker response_text in
  mkDecision ("decision_" +:+ pretty now +:+ "_" +:+ ctx_workflow_id context)
    (ctx_workflow_id context) (ctx_task_id context) decision confidence reasoning
    alternatives actions (ctx_decision_type context).

End WithDigits.

(** The ASCII digits. *)
Definition ascii_digit (c : char) : option N :=
  if ((48 <=? c) && (c <=? 57))%N then Some (c - 48)%N else None.

End DecisionEngine.

(** * Properties *)

(** ** Scheduler: agent selection *)

Module SchedulerSelection.
Import Core Scheduler.

(** The tier [_find_available_agent] looks at first for a task that
    requires no tier: "high priority go to executive agents", "medium
    priority tasks go to manager agents", "low priority tasks go to task
    agents". *)
Definition preferred_tier (p : TaskPriority) : AgentType :=
  match p with
  | CRITICAL | HIGH => EXECUTIVE
  | MEDIUM => MANAGER
  | LOW => TASK
  end.

(** A medium-priority task with no required tier, and pools holding one
    executive and one manager agent. *)
Definition medium_task : Task :=
  mkTask "t-1" "report" "weekly report" MEDIUM PENDING None 0 0 None None None
    [] "{}" None 0 3 [] None 600.

Definition pools_exec_and_manager : Pools := mkPools ["exec-1"] ["mgr-1"] [].

Lemma take_first_cons ty p a rest :
  pool ty p = a :: rest → take_first ty p = Some (a, set_pool ty rest p).
Proof. unfold take_first. by intros ->. Qed.

Lemma take_first_nil ty p : pool ty p = [] → take_first ty p = None.
Proof. unfold take_first. by intros ->. Qed.

Lemma find_no_requirement t p :
  required_agent_type t = None →
  _find_available_agent t p =
    match take_first (preferred_tier (priority t)) p with
    | Some r => Some r
    | None => first_of_tiers [EXECUTIVE; MANAGER; TASK] p
    end.
Proof.
  intros Hreq. unfold _find_available_agent. rewrite Hreq.
  by destruct (priority t).
Qed.

(** C5, as stated, fails: with an executive and a manager agent both
    available, a MEDIUM task that requires no tier is given the manager
    agent, and the executive agent stays in its pool. *)
Lemma c5_medium_task_gets_manager :
  required_agent_type medium_task = None ∧
  executive_pool pools_exec_and_manager = ["exec-1"] ∧
  _find_available_agent medium_task pools_exec_and_manager
    = Some ("mgr-1", mkPools ["exec-1"] [] []).
Proof. repeat split. Qed.

(** C5, amended: for a task with no required tier the scheduler first
    takes the head of the pool its priority prefers (CRITICAL and HIGH:
    executive, MEDIUM: manager, LOW: task); only when that pool is empty
    does it fall back through executive, then manager, then task, and it
    finds no agent exactly when all three pools are empty. *)
Theorem find_available_agent_tiers (t : Task) (p : Pools) :
  required_agent_type t = None →
  let pref := preferred_tier (priority t) in
  (∀ a rest, pool pref p = a :: rest →
     _find_available_agent t p = Some (a, set_pool pref rest p)) ∧
  (pool pref p = [] →
     (∀ a rest, executive_pool p = a :: rest →
        _find_available_agent t p = Some (a, set_pool EXECUTIVE rest p)) ∧
     (∀ a rest, executive_pool p = [] → manager_pool p = a :: rest →
        _find_available_agent t p = Some (a, set_pool MANAGER rest p)) ∧
     (∀ a rest, executive_pool p = [] → manager_pool p = [] →
        task_pool p = a :: rest →
        _find_available_agent t p = Some (a, set_pool TASK rest p)) ∧
     (executive_pool p = [] → manager_pool p = [] → task_pool p = [] →
        _find_available_agent t p = None)).
Proof.
  intros Hreq pref. rewrite (find_no_requirement _ _ Hreq). fold pref.
  split.
  - intros a rest Hpool. by rewrite (take_first_cons _ _ _ _ Hpool).
  - intros Hnil. rewrite (take_first_nil _ _ Hnil). simpl.
    repeat split.
    + intros a rest He. by rewrite (take_first_cons EXECUTIVE _ _ _ He).
    + intros a rest He Hm.
      rewrite (take_first_nil EXECUTIVE _ He).
      by rewrite (take_first_cons MANAGER _ _ _ Hm).
    + intros a rest He Hm Ht.
      rewrite (take_first_nil EXECUTIVE _ He), (take_first_nil MANAGER _ Hm).
      by rewrite (take_first_cons TASK _ _ _ Ht).
    + intros He Hm Ht.
      by rewrite (take_first_nil EXECUTIVE _ He), (take_first_nil MANAGER _ Hm),
        (take_first_nil TASK _ Ht).
Qed.

Lemma find_available_agent_tiers_witness :
  required_agent_type medium_task = None ∧
  _find_available_agent medium_task pools_exec_and_manager
    = Some ("mgr-1", set_pool MANAGER [] pools_exec_and_manager).
Proof.
  split; [reflexivity |].
  apply (proj1 (find_available_agent_tiers medium_task pools_exec_and_manager eq_refl)).
  reflexivity.
Defined.

End SchedulerSelection.

(** ** Scheduler: the assignment loop *)

Module SchedulerLoop.
Import Core Scheduler.

Lemma status_of_update_task s tid tid' f :
  status_of tid' (update_task tid f s) =
    if decide (tid = tid') then status <$> (f <$> tasks s !! tid')
    else status_of tid' s.
Proof.
  unfold status_of, update_task. simpl. rewrite lookup_alter.
  destruct (decide (tid = tid')) as [->|]; done.
Qed.

Lemma status_of_update_task_ne s tid tid' f :
  tid ≠ tid' → status_of tid' (update_task tid f s) = status_of tid' s.
Proof. intros. rewrite status_of_update_task. by rewrite decide_False. Qed.

Lemma dependencies_met_true ts deps :
  dependencies_met ts deps = true ↔
  ∀ dep, dep ∈ deps → status <$> ts !! dep = Some COMPLETED.
Proof.
  unfold dependencies_met. induction deps as [|d deps IH]; simpl.
  - split; [intros _ dep Hin; by apply elem_of_nil in Hin | done].
  - rewrite andb_true_iff, IH. split.
    + intros [Hd Hrest] dep [->|Hin]%elem_of_cons; [|by apply Hrest].
      destruct (ts !! d) as [t|]; [|done].
      apply bool_decide_eq_true in Hd. simpl. by rewrite Hd.
    + intros Hall. split.
      * specialize (Hall d (list_elem_of_here _ _)).
        destruct (ts !! d) as [t|]; [|done].
        apply bool_decide_eq_true. simpl in Hall. congruence.
      * intros dep Hin. apply Hall. by apply list_elem_of_further.
Qed.


(** What one iteration of the loop can do: it either leaves the task
    table and the coroutines alone, or it assigns the task at the head of
    the queue. *)
Inductive loop_effect (now : Z) (s : State) : State → Prop :=
| loop_keeps s' :
    tasks s' = tasks s →
    process_tasks s' = process_tasks s →
    active_tasks s' = active_tasks s →
    loop_effect now s s'
| loop_assigns prio sched tid q task agent_id pools' :
    task_queue s = (prio, sched, tid) :: q →
    tasks s !! tid = Some task →
    status task = PENDING →
    (∀ sf, scheduled_for task = Some sf → sf ≤ now) →
    dependencies_met (tasks s) (dependencies task) = true →
    _find_available_agent task (available_agents s) = Some (agent_id, pools') →
    agent_id ≠ "" →
    loop_effect now s
      (set_active_tasks (<[tid := agent_id]> (active_tasks s))
         (set_process_tasks (<[tid := Spawned agent_id]> (process_tasks s))
            (update_task tid (λ t, set_updated_at now (set_status ASSIGNED t))
               (set_task_queue q (set_available_agents pools' s))))).

Lemma scheduler_loop_effect now s : loop_effect now s (_scheduler_loop now s).
Proof.
  unfold _scheduler_loop.
  destruct (task_queue s) as [|[[prio sched] tid] q] eqn:Hq;
    [by apply loop_keeps|].
  destruct (all_available (available_agents s) =? 0)%nat; [by apply loop_keeps|].
  destruct (tasks s !! tid) as [task|] eqn:Htask; [|by apply loop_keeps].
  destruct (bool_decide (status task = PENDING)) eqn:Hpending; simpl;
    [|by apply loop_keeps].
  apply bool_decide_eq_true in Hpending.
  destruct (match scheduled_for task with Some sf => now <? sf | None => false end)
    eqn:Hdue; [by apply loop_keeps|].
  destruct (dependencies_met (tasks s) (dependencies task)) eqn:Hdeps; simpl;
    [|by apply loop_keeps].
  destruct (_find_available_agent task (available_agents s))
    as [[agent_id pools']|] eqn:Hfind; [|by apply loop_keeps].
  destruct (bool_decide (agent_id = "")) eqn:Hempty; [by apply loop_keeps|].
  apply bool_decide_eq_false in Hempty.
  eapply loop_assigns; eauto.
  - simpl. by rewrite Hq.
  - intros sf Hsf. rewrite Hsf in Hdue. lia.
Qed.


(** *** Unmet dependencies *)

(** Three pending tasks whose dependencies form a cycle X → Y → Z → X,
    with one agent registered and available. *)
Definition dep_task (tid dep : string) : Task :=
  mkTask tid tid "" MEDIUM PENDING None 0 0 None None None [] "{}" None 0 3
    [dep] None 600.







End SchedulerLoop.

(** ** Scheduler: how operations change a task's status *)

Module SchedulerStatus.
Import Core Scheduler SchedulerLoop.

(** Task ids are unique: a submission does not reuse the id of a task
    that is already in the table. *)
Definition fresh_submit (op : Op) (s : State) : Prop :=
  match op with
  | OpSubmit t _ => tasks s !! task_id t = None
  | _ => True
  end.

(** The status [_process_task] leaves a task in when the awaited run ends
    with [outcome]. *)
Definition end_status (outcome : RunOutcome) (now : Z) (t : Task) : TaskStatus :=
  match outcome with
  | RunReturned _ _ => COMPLETED
  | RunCancelled => CANCELLED
  | RunRaised => status (on_failure now t).1
  end.

(** The ways an operation sets the status of task [x]. *)
Inductive status_change (s : State) (x : string) : Op → TaskStatus → Prop :=
| change_assigned now t :
    tasks s !! x = Some t →
    status t = PENDING →
    dependencies_met (tasks s) (dependencies t) = true →
    status_change s x (OpLoop now) ASSIGNED
| change_cancel tid now st :
    status_of x s = Some st → st ≠ COMPLETED → st ≠ CANCELLED →
    status_change s x (OpCancel tid now) CANCELLED
| change_begin now agent_id :
    process_tasks s !! x = Some (Spawned agent_id) →
    status_change s x (OpBegin x now) IN_PROGRESS
| change_resume outcome now agent_id ty must_cancel t :
    process_tasks s !! x = Some (Awaiting agent_id ty must_cancel) →
    tasks s !! x = Some t →
    status_change s x (OpResume x outcome now)
      (end_status (if must_cancel then RunCancelled else outcome) now t).

(** A cancellation only ever turns statuses other than COMPLETED and
    CANCELLED into CANCELLED. *)
Definition cancel_rel (s s' : State) : Prop :=
  ∀ x, status_of x s' = status_of x s ∨
       (status_of x s' = Some CANCELLED ∧
        ∃ st, status_of x s = Some st ∧ st ≠ COMPLETED ∧ st ≠ CANCELLED).

Lemma cancel_rel_refl s : cancel_rel s s.
Proof. intros x. by left. Qed.

Lemma cancel_rel_trans s1 s2 s3 :
  cancel_rel s1 s2 → cancel_rel s2 s3 → cancel_rel s1 s3.
Proof.
  intros H12 H23 x.
  destruct (H23 x) as [E23|[E3 (st & E2 & Hc & Hx)]].
  - rewrite E23. apply H12.
  - destruct (H12 x) as [E12|[E2' _]].
    + right. split; [done|]. exists st. by rewrite <- E12.
    + congruence.
Qed.

Lemma cancel_all_preserves (P : State → Prop) cancel ids s s' :
  (∀ id sx b sy, P sx → cancel id sx = Some (b, sy) → P sy) →
  P s → cancel_all cancel ids s = Some s' → P s'.
Proof.
  intros Hstep. unfold cancel_all. revert s.
  induction ids as [|id ids IH]; simpl; intros s HP H.
  - by injection H as <-.
  - destruct (cancel id s) as [[b sy]|] eqn:Hc; simpl in H.
    + eapply IH; [|exact H]. by eapply Hstep.
    + exfalso. clear -H. induction ids as [|? ? IH']; simpl in H; [done|auto].
Qed.

Lemma cancel_one_tasks now tid s :
  tasks (cancel_one now tid s)
    = alter (λ t, set_updated_at now (set_status CANCELLED t)) tid (tasks s).
Proof.
  unfold cancel_one, cancel_future.
  destruct (active_tasks s !! tid) as [a|]; [|done].
  destruct (process_tasks s !! tid) as [[?|? ? ?]|]; simpl;
    by destruct (agents s !! a).
Qed.

Lemma cancel_one_rel now tid s t :
  tasks s !! tid = Some t →
  ¬ (status t = COMPLETED ∨ status t = CANCELLED) →
  cancel_rel s (cancel_one now tid s).
Proof.
  intros Ht Hst x. unfold status_of. rewrite cancel_one_tasks, lookup_alter.
  destruct (decide (tid = x)) as [<-|]; [|by left].
  right. rewrite Ht. simpl. split; [done|].
  exists (status t). split; [done|]. tauto.
Qed.

Lemma cancel_task_rec_rel fuel now tid s b s' :
  cancel_task_rec fuel now tid s = Some (b, s') → cancel_rel s s'.
Proof.
  revert tid s b s'. induction fuel as [|fuel IH]; intros tid s b s' H; [done|].
  simpl in H.
  destruct (tasks s !! tid) as [t|] eqn:Ht.
  2:{ injection H as _ <-. apply cancel_rel_refl. }
  destruct (bool_decide (status t = COMPLETED ∨ status t = CANCELLED)) eqn:Hg.
  { injection H as _ <-. apply cancel_rel_refl. }
  apply bool_decide_eq_false in Hg.
  destruct (cancel_all _ _ _) as [s3|] eqn:Hall; [|done].
  injection H as _ <-.
  eapply (cancel_all_preserves (cancel_rel s)); [| |exact Hall].
  - intros id sx b' sy Hsx Hc. eapply cancel_rel_trans; [exact Hsx|]. by eapply IH.
  - by eapply cancel_one_rel.
Qed.

Lemma invoke_callback_fields tid s :
  tasks (invoke_callback tid s) = tasks s ∧
  agents (invoke_callback tid s) = agents s ∧
  task_queue (invoke_callback tid s) = task_queue s ∧
  process_tasks (invoke_callback tid s) = process_tasks s ∧
  active_tasks (invoke_callback tid s) = active_tasks s.
Proof.
  unfold invoke_callback.
  destruct (task_callbacks s !! tid) as [[]|];
    destruct (status_of tid s) as [st|]; try done; by destruct (is_final st).
Qed.

Lemma status_of_invoke_callback tid s x :
  status_of x (invoke_callback tid s) = status_of x s.
Proof.
  unfold status_of. by rewrite (proj1 (invoke_callback_fields tid s)).
Qed.

Lemma end_status_lookup tid agent_id ty outcome now s x :
  status_of x (process_task_end tid agent_id ty outcome now s) =
    if decide (tid = x) then end_status outcome now <$> tasks s !! x
    else status_of x s.
Proof.
  unfold process_task_end. rewrite status_of_invoke_callback.
  destruct outcome as [content model| |]; unfold status_of; simpl.
  - rewrite lookup_alter. destruct (decide (tid = x)) as [<-|]; [|done].
    by destruct (tasks s !! tid).
  - rewrite lookup_alter. destruct (decide (tid = x)) as [<-|]; [|done].
    by destruct (tasks s !! tid).
  - destruct (tasks s !! tid) as [t|] eqn:Ht.
    + destruct (on_failure now t) as [t' [[p ts]|]] eqn:Hf; simpl;
        rewrite lookup_insert; destruct (decide (tid = x)) as [<-|]; try done;
        rewrite Ht; simpl; by rewrite Hf.
    + simpl. destruct (decide (tid = x)) as [<-|]; [|done]. by rewrite Ht.
Qed.

(** *** [cancel_task] returns

    The fuel [cancel_task] starts with is always enough: the recursion
    over subtasks ends however the subtask ids are linked. *)

Lemma live_cancel_one now tid s t :
  tasks s !! tid = Some t →
  ¬ (status t = COMPLETED ∨ status t = CANCELLED) →
  S (live (cancel_one now tid s)) = live s.
Proof.
  intros Ht Hst. unfold live. rewrite cancel_one_tasks.
  rewrite (alter_alt_Some _ _ _ _ Ht).
  rewrite map_filter_insert_False by (simpl; tauto).
  rewrite map_filter_delete.
  assert (filter (λ kv : string * Task,
                    ¬ (status kv.2 = COMPLETED ∨ status kv.2 = CANCELLED))
            (tasks s) !! tid = Some t) as Hin
    by (by apply map_lookup_filter_Some_2).
  rewrite map_size_delete_Some by eauto.
  pose proof (map_size_non_empty_iff
    (filter (λ kv : string * Task,
               ¬ (status kv.2 = COMPLETED ∨ status kv.2 = CANCELLED)) (tasks s))) as Hne.
  destruct (size _) eqn:Hsz; [|done].
  exfalso. apply (proj1 (map_size_empty_iff _)) in Hsz.
  rewrite Hsz in Hin. by rewrite lookup_empty in Hin.
Qed.

Lemma cancel_task_rec_returns fuel now tid s :
  (live s < fuel)%nat →
  ∃ b s', cancel_task_rec fuel now tid s = Some (b, s') ∧ (live s' ≤ live s)%nat.
Proof.
  revert tid s. induction fuel as [|fuel IH]; intros tid s Hlive; [lia|].
  simpl. destruct (tasks s !! tid) as [t|] eqn:Ht; [|by eauto].
  destruct (bool_decide (status t = COMPLETED ∨ status t = CANCELLED)) eqn:Hg;
    [by eauto|].
  apply bool_decide_eq_false in Hg.
  pose proof (live_cancel_one now tid s t Ht Hg) as Hone.
  assert (∀ ids s0, (live s0 < fuel)%nat →
            ∃ s', cancel_all (cancel_task_rec fuel now) ids s0 = Some s' ∧
                  (live s' ≤ live s0)%nat) as Hall.
  { unfold cancel_all. induction ids as [|id ids IHids]; intros s0 Hs0; simpl.
    - eauto.
    - destruct (IH id s0 Hs0) as (b & s1 & -> & Hle). simpl.
      destruct (IHids s1) as (s' & -> & Hle'); [lia|].
      exists s'. split; [done|lia]. }
  destruct (Hall (subtask_ids t) (cancel_one now tid s)) as (s3 & -> & Hle); [lia|].
  simpl. exists true, s3. split; [done|lia].
Qed.

Lemma cancel_task_returns now tid s : is_Some (cancel_task now tid s).
Proof.
  destruct (cancel_task_rec_returns (S (live s)) now tid s) as (b & s' & H & _);
    [lia|].
  unfold cancel_task. rewrite H. eauto.
Qed.

Lemma tasks_unregister_agent a s : tasks (unregister_agent a s).2 = tasks s.
Proof.
  unfold unregister_agent. destruct (agents s !! a); [|done].
  by destruct (list_remove _ _).
Qed.

Lemma tasks_submit_task t cb s :
  tasks (submit_task t cb s) = <[task_id t := t]> (tasks s).
Proof. unfold submit_task. by destruct cb. Qed.

(** Every change of the status of a task already in the table is one of
    the [status_change] cases. *)
Lemma step_status op s x st st' :
  fresh_submit op s →
  status_of x s = Some st →
  status_of x (step op s) = Some st' →
  st' = st ∨ status_change s x op st'.
Proof.
  intros Hfresh Hst Hst'.
  destruct op as [a ty|a|t cb|tid now|now|tid now|tid outcome now]; simpl in *.
  - left. unfold status_of in *. simpl in Hst'. congruence.
  - left. unfold status_of in *. rewrite tasks_unregister_agent in Hst'. congruence.
  - left. unfold status_of in *. rewrite tasks_submit_task in Hst'.
    destruct (decide (task_id t = x)) as [<-|Hne].
    + by rewrite Hfresh in Hst.
    + rewrite lookup_insert_ne in Hst' by done. congruence.
  - destruct (cancel_task now tid s) as [[b s']|] eqn:Hc; [|left; congruence].
    destruct (cancel_task_rec_rel _ _ _ _ _ _ Hc x) as [E|[E (st0 & E0 & Hc1 & Hc2)]].
    + left. congruence.
    + right. assert (st' = CANCELLED) as -> by congruence.
      by eapply change_cancel.
  - destruct (scheduler_loop_effect now s)
      as [s' Htasks _ _|prio sched tid q task agent_id pools' _ Htask Hpend _ Hmet _ _].
    + left. unfold status_of in *. rewrite Htasks in Hst'. congruence.
    + unfold status_of in Hst'. simpl in Hst'. rewrite lookup_alter in Hst'.
      destruct (decide (tid = x)) as [<-|]; [|left; unfold status_of in Hst; congruence].
      right. rewrite Htask in Hst'. simpl in Hst'. injection Hst' as <-.
      by eapply change_assigned.
  - destruct (process_tasks s !! tid) as [[agent_id|? ? ?]|] eqn:Hco;
      [|left; congruence..].
    unfold process_task_begin in Hst'.
    destruct (tasks s !! tid) as [t|] eqn:Ht;
      [destruct (agents s !! agent_id) as [ty|]|];
      try (left; unfold status_of in *; simpl in Hst'; congruence).
    unfold status_of in Hst'. simpl in Hst'. rewrite lookup_alter in Hst'.
    destruct (decide (tid = x)) as [<-|]; [|left; unfold status_of in Hst; congruence].
    right. rewrite Ht in Hst'. simpl in Hst'. injection Hst' as <-.
    by eapply change_begin.
  - destruct (process_tasks s !! tid) as [[?|agent_id ty mc]|] eqn:Hco;
      [left; congruence| |left; congruence].
    rewrite end_status_lookup in Hst'. simpl in Hst'.
    destruct (decide (tid = x)) as [<-|];
      [|left; unfold status_of in *; simpl in Hst'; congruence].
    right. destruct (tasks s !! tid) as [t|] eqn:Ht; [|done].
    simpl in Hst'. injection Hst' as <-.
    by eapply change_resume.
Qed.

Lemma on_failure_status now t :
  status (on_failure now t).1 = FAILED ∨ status (on_failure now t).1 = PENDING.
Proof. unfold on_failure. simpl. destruct (_ <? _); simpl; auto. Qed.

Lemma end_status_not_assigned outcome now t : end_status outcome now t ≠ ASSIGNED.
Proof.
  destruct outcome; simpl; try done.
  destruct (on_failure_status now t) as [-> | ->]; done.
Qed.

(** A registered agent, a dependency B that is already COMPLETED and a
    pending task C that depends on it; B's stale queue entry has been
    discarded by one loop iteration. *)
Definition completed_b : Task :=
  mkTask "B" "B" "" MEDIUM COMPLETED None 0 0 None (Some 0) None [] "{}"
    (Some ("done", "m")) 0 3 [] None 600.

Definition state_b_done : State :=
  _scheduler_loop 1
    (submit_task (dep_task "C" "B") None
       (submit_task completed_b None (register_agent "agent-1" TASK init))).

(** C2: an operation of the scheduler sets the status of a task C of the
    table to ASSIGNED only when every dependency id of C is, at that
    moment, a task of the table with status COMPLETED (task ids being
    unique). *)
Theorem assigned_only_when_dependencies_completed
    (s : State) (op : Op) (c : string) (st : TaskStatus) :
  fresh_submit op s →
  status_of c s = Some st →
  st ≠ ASSIGNED →
  status_of c (step op s) = Some ASSIGNED →
  ∃ t, tasks (step op s) !! c = Some t ∧
       ∀ b, b ∈ dependencies t → status_of b (step op s) = Some COMPLETED.
Proof.
  intros Hfresh Hst Hne Has.
  destruct (step_status op s c st ASSIGNED Hfresh Hst Has) as [E|Hch];
    [congruence|].
  inversion Hch as [now t Ht Hpend Hmet| | |outcome now a ty mc t Hco Ht Hop Hend];
    subst.
  2:{ by apply end_status_not_assigned in Hend. }
  simpl in *.
  destruct (scheduler_loop_effect now s)
    as [s' Htasks _ _|prio sched tid q task agent_id pools' _ Htask _ _ _ _ _].
  { unfold status_of in *. rewrite Htasks in Has. congruence. }
  unfold status_of in Has. simpl in Has. rewrite lookup_alter in Has.
  destruct (decide (tid = c)) as [->|]; [|unfold status_of in Hst; congruence].
  assert (task = t) as -> by congruence.
  exists (set_updated_at now (set_status ASSIGNED t)). split.
  - simpl. rewrite lookup_alter, decide_True by done. by rewrite Ht.
  - simpl. intros b Hb.
    pose proof (proj1 (dependencies_met_true _ _) Hmet b Hb) as Hdone.
    unfold status_of. simpl. rewrite lookup_alter.
    destruct (decide (c = b)) as [<-|]; [|done].
    rewrite Ht in Hdone. simpl in Hdone. congruence.
Qed.

Lemma assigned_only_when_dependencies_completed_witness :
  ∃ t, tasks (step (OpLoop 2) state_b_done) !! "C" = Some t ∧
       ∀ b, b ∈ dependencies t →
            status_of b (step (OpLoop 2) state_b_done) = Some COMPLETED.
Proof.
  apply (assigned_only_when_dependencies_completed
           state_b_done (OpLoop 2) "C" PENDING).
  - exact I.
  - vm_compute. reflexivity.
  - discriminate.
  - vm_compute. reflexivity.
Defined.

End SchedulerStatus.

(** ** Scheduler: retries of a failing task *)

Module SchedulerRetry.
Import Core Scheduler SchedulerLoop SchedulerStatus.











(** A pending task that fails on every attempt, in a scheduler with one
    task agent. *)
Definition flaky_task : Task :=
  mkTask "T" "sync" "sync the ledger" HIGH PENDING None 0 0 None None None
    [] "{}" None 0 3 [] None 600.




End SchedulerRetry.

(** ** Scheduler: the status state machine *)

Module SchedulerStateMachine.
Import Core Scheduler SchedulerLoop SchedulerStatus.

(** The status changes the scheduler makes. *)
Inductive transition : TaskStatus → TaskStatus → Prop :=
| tr_assign : transition PENDING ASSIGNED
| tr_start : transition ASSIGNED IN_PROGRESS
| tr_complete : transition IN_PROGRESS COMPLETED
| tr_fail : transition IN_PROGRESS FAILED
| tr_cancelled : transition IN_PROGRESS CANCELLED
| tr_retry : transition IN_PROGRESS PENDING
| tr_cancel st : st ≠ COMPLETED → st ≠ CANCELLED → transition st CANCELLED.

(** States reached from the initial scheduler by its operations, task ids
    being unique. *)
Inductive reachable : State → Prop :=
| reachable_init : reachable init
| reachable_step s op : reachable s → fresh_submit op s → reachable (step op s).

(** What the coroutines of [_process_task] say about the status of their
    task. *)
Definition coroutine_inv (s : State) : Prop :=
  ∀ tid co, process_tasks s !! tid = Some co →
    match co with
    | Spawned _ =>
        status_of tid s = Some ASSIGNED ∧ is_Some (active_tasks s !! tid)
    | Awaiting _ _ false =>
        status_of tid s = Some IN_PROGRESS ∧ is_Some (active_tasks s !! tid)
    | Awaiting _ _ true => status_of tid s = Some CANCELLED
    end.

Lemma coroutine_inv_same s s' :
  tasks s' = tasks s →
  process_tasks s' = process_tasks s →
  active_tasks s' = active_tasks s →
  coroutine_inv s → coroutine_inv s'.
Proof.
  intros Ht Hp Ha Hinv tid co Hco. rewrite Hp in Hco.
  specialize (Hinv tid co Hco). unfold status_of in *.
  by rewrite Ht, Ha.
Qed.

Lemma unregister_agent_fields a s :
  process_tasks (unregister_agent a s).2 = process_tasks s ∧
  active_tasks (unregister_agent a s).2 = active_tasks s.
Proof.
  unfold unregister_agent. destruct (agents s !! a); [|done].
  by destruct (list_remove _ _).
Qed.

Lemma submit_task_fields t cb s :
  process_tasks (submit_task t cb s) = process_tasks s ∧
  active_tasks (submit_task t cb s) = active_tasks s.
Proof. unfold submit_task. by destruct cb. Qed.

Lemma cancel_one_process_tasks now tid s :
  process_tasks (cancel_one now tid s) =
    match active_tasks s !! tid with
    | Some _ => process_tasks (cancel_future tid s)
    | None => process_tasks s
    end.
Proof.
  unfold cancel_one. destruct (active_tasks s !! tid) as [a|]; [|done].
  simpl. by destruct (agents (cancel_future tid s) !! a).
Qed.

Lemma cancel_one_active_tasks now tid s :
  active_tasks (cancel_one now tid s) = delete tid (active_tasks s).
Proof.
  unfold cancel_one. destruct (active_tasks s !! tid) as [a|] eqn:Ha.
  - simpl. destruct (agents (cancel_future tid s) !! a); simpl;
      unfold cancel_future; by destruct (process_tasks s !! tid) as [[]|].
  - simpl. by rewrite delete_id.
Qed.

Lemma cancel_one_inv now tid s :
  coroutine_inv s → coroutine_inv (cancel_one now tid s).
Proof.
  intros Hinv x co Hco.
  rewrite cancel_one_process_tasks in Hco.
  unfold status_of. rewrite cancel_one_tasks, cancel_one_active_tasks, lookup_alter.
  destruct (decide (tid = x)) as [<-|Hne].
  - destruct (active_tasks s !! tid) as [a|] eqn:Ha.
    + unfold cancel_future in Hco.
      destruct (process_tasks s !! tid) as [[a'|a' ty mc]|] eqn:Hp; simpl in Hco.
      * by rewrite lookup_delete_eq in Hco.
      * rewrite lookup_insert_eq in Hco. injection Hco as <-.
        specialize (Hinv tid _ Hp). unfold status_of in Hinv.
        destruct mc; [|destruct Hinv as [Hinv _]];
          destruct (tasks s !! tid); by simplify_eq.
      * by rewrite Hp in Hco.
    + specialize (Hinv tid co Hco).
      destruct co as [a|a ty [|]].
      * destruct Hinv as [_ [? ?]]. congruence.
      * unfold status_of in Hinv. by destruct (tasks s !! tid).
      * destruct Hinv as [_ [? ?]]. congruence.
  - assert (process_tasks s !! x = Some co) as Hco'.
    { destruct (active_tasks s !! tid); [|done].
      unfold cancel_future in Hco.
      destruct (process_tasks s !! tid) as [[|]|]; simpl in Hco; try done.
      - by rewrite lookup_delete_ne in Hco.
      - by rewrite lookup_insert_ne in Hco. }
    specialize (Hinv x co Hco'). unfold status_of in Hinv.
    rewrite lookup_delete_ne by done. exact Hinv.
Qed.

Lemma cancel_task_rec_inv fuel now tid s b s' :
  coroutine_inv s → cancel_task_rec fuel now tid s = Some (b, s') →
  coroutine_inv s'.
Proof.
  revert tid s b s'. induction fuel as [|fuel IH]; intros tid s b s' Hinv H; [done|].
  simpl in H.
  destruct (tasks s !! tid) as [t|] eqn:Ht; [|by simplify_eq].
  destruct (bool_decide _); [by simplify_eq|].
  destruct (cancel_all _ _ _) as [s3|] eqn:Hall; [|done].
  injection H as _ <-.
  eapply (cancel_all_preserves coroutine_inv); [| |exact Hall].
  - intros id sx b' sy Hsx Hc. by eapply IH.
  - by apply cancel_one_inv.
Qed.

Lemma process_task_end_fields tid agent_id ty outcome now s :
  process_tasks (process_task_end tid agent_id ty outcome now s) = process_tasks s ∧
  active_tasks (process_task_end tid agent_id ty outcome now s)
    = delete tid (active_tasks s).
Proof.
  unfold process_task_end.
  match goal with
  | |- context [invoke_callback tid ?X] =>
      destruct (invoke_callback_fields tid X) as (_ & _ & _ & -> & ->)
  end.
  destruct outcome; simpl; try done.
  destruct (tasks s !! tid) as [t|]; [|done].
  by destruct (on_failure now t) as [t' [[p ts]|]].
Qed.

Lemma step_coroutine_inv op s :
  fresh_submit op s → coroutine_inv s → coroutine_inv (step op s).
Proof.
  intros Hfresh Hinv.
  destruct op as [a ty|a|t cb|tid now|now|tid now|tid outcome now]; simpl in *.
  - by eapply coroutine_inv_same; [..|exact Hinv].
  - destruct (unregister_agent_fields a s) as [Hp Ha].
    eapply coroutine_inv_same; [apply tasks_unregister_agent|done|done|done].
  - destruct (submit_task_fields t cb s) as [Hp Ha].
    intros x co Hco. rewrite Hp in Hco. specialize (Hinv x co Hco).
    assert (status_of x (submit_task t cb s) = status_of x s) as Hsame.
    { unfold status_of. rewrite tasks_submit_task.
      destruct (decide (task_id t = x)) as [<-|]; [|by rewrite lookup_insert_ne].
      unfold status_of in Hinv. rewrite Hfresh in Hinv.
      destruct co as [|? ? []]; simpl in Hinv; by destruct_and?. }
    by rewrite Hsame, Ha.
  - destruct (cancel_task now tid s) as [[b s']|] eqn:Hc; [|done].
    by eapply cancel_task_rec_inv.
  - destruct (scheduler_loop_effect now s)
      as [s' Ht Hp Ha|prio sched tid q task agent_id pools' _ Htask _ _ _ _ _].
    + by eapply coroutine_inv_same.
    + intros x co Hco. simpl in Hco. unfold status_of. simpl.
      rewrite lookup_alter.
      destruct (decide (tid = x)) as [<-|Hne].
      * rewrite lookup_insert_eq in Hco. injection Hco as <-.
        rewrite lookup_insert_eq, Htask. simpl. eauto.
      * rewrite lookup_insert_ne in Hco by done.
        rewrite lookup_insert_ne by done. by apply Hinv.
  - destruct (process_tasks s !! tid) as [[agent_id|? ? ?]|] eqn:Hco; try done.
    unfold process_task_begin.
    destruct (tasks s !! tid) as [t|] eqn:Ht;
      [destruct (agents s !! agent_id) as [ty|]|].
    + intros x co Hx. simpl in Hx. unfold status_of. simpl. rewrite lookup_alter.
      destruct (decide (tid = x)) as [<-|Hne].
      * rewrite lookup_insert_eq in Hx. injection Hx as <-.
        rewrite Ht. simpl. split; [done|]. by apply (Hinv tid _ Hco).
      * rewrite lookup_insert_ne in Hx by done. by apply Hinv.
    + intros x co Hx. simpl in Hx.
      destruct (decide (tid = x)) as [<-|Hne];
        [by rewrite lookup_delete_eq in Hx|].
      rewrite lookup_delete_ne in Hx by done. by apply Hinv.
    + intros x co Hx. simpl in Hx.
      destruct (decide (tid = x)) as [<-|Hne];
        [by rewrite lookup_delete_eq in Hx|].
      rewrite lookup_delete_ne in Hx by done. by apply Hinv.
  - destruct (process_tasks s !! tid) as [[?|agent_id ty mc]|] eqn:Hco; try done.
    intros x co Hx.
    destruct (process_task_end_fields tid agent_id ty
                (if mc then RunCancelled else outcome) now
                (set_process_tasks (delete tid (process_tasks s)) s)) as [Hp Ha].
    rewrite Hp in Hx. rewrite Ha, end_status_lookup. simpl in *.
    destruct (decide (tid = x)) as [<-|Hne];
      [by rewrite lookup_delete_eq in Hx|].
    rewrite lookup_delete_ne in Hx by done.
    rewrite lookup_delete_ne by done. by apply Hinv.
Qed.

Lemma reachable_coroutine_inv s : reachable s → coroutine_inv s.
Proof.
  induction 1 as [|s op _ IH Hfresh].
  - intros tid co Hco. simpl in Hco. by rewrite lookup_empty in Hco.
  - by apply step_coroutine_inv.
Qed.

(** A task that fails with no retry allowed and is cancelled afterwards,
    and a task that fails with retries left. *)
Definition one_shot_task : Task :=
  mkTask "U" "export" "export the ledger" LOW PENDING None 0 0 None None None
    [] "{}" None 0 0 [] None 600.

Definition state_failed : State :=
  run [OpRegisterAgent "agent-1" TASK; OpSubmit one_shot_task None;
       OpLoop 1; OpBegin "U" 2; OpResume "U" RunRaised 3] init.

Definition state_in_progress : State :=
  run [OpRegisterAgent "agent-1" TASK; OpSubmit SchedulerRetry.flaky_task None;
       OpLoop 1; OpBegin "T" 2] init.

(** C4, as stated, fails: [cancel_task] moves a FAILED task to CANCELLED
    (its guard only excludes COMPLETED and CANCELLED), and a failed
    attempt with retries left moves the task from IN_PROGRESS back to
    PENDING. *)
Lemma c4_failed_task_cancelled_and_retry_goes_back :
  status_of "U" state_failed = Some FAILED ∧
  status_of "U" (step (OpCancel "U" 4) state_failed) = Some CANCELLED ∧
  status_of "T" state_in_progress = Some IN_PROGRESS ∧
  status_of "T" (step (OpResume "T" RunRaised 3) state_in_progress) = Some PENDING.
Proof. by vm_compute. Qed.

Lemma state_in_progress_reachable : reachable state_in_progress.
Proof.
  unfold state_in_progress, run. cbn [foldl].
  repeat (apply reachable_step; [|by vm_compute]).
  apply reachable_init.
Qed.

(** C4, amended: with unique task ids, every change an operation makes
    to the status of a task is one of PENDING→ASSIGNED (assignment),
    ASSIGNED→IN_PROGRESS (execution starts), IN_PROGRESS→COMPLETED, FAILED
    or CANCELLED (execution ends), IN_PROGRESS→PENDING (a failed attempt
    with retries left), or a cancellation, which moves any status other
    than COMPLETED and CANCELLED to CANCELLED; in particular no operation
    moves a task out of COMPLETED or CANCELLED, and out of FAILED only a
    cancellation does. *)
Theorem status_changes_follow_transitions
    (s : State) (op : Op) (x : string) (st st' : TaskStatus) :
  reachable s →
  fresh_submit op s →
  status_of x s = Some st →
  status_of x (step op s) = Some st' →
  (st' = st ∨ transition st st') ∧
  (st = COMPLETED ∨ st = CANCELLED → st' = st) ∧
  (st = FAILED → st' = FAILED ∨ (st' = CANCELLED ∧ ∃ tid now, op = OpCancel tid now)).
Proof.
  intros Hreach Hfresh Hst Hst'.
  pose proof (reachable_coroutine_inv s Hreach) as Hinv.
  destruct (step_status op s x st st' Hfresh Hst Hst') as [->|Hch].
  { split_and!; auto. }
  assert (transition st st' ∧
          (st = FAILED → st' = CANCELLED ∧ ∃ tid now, op = OpCancel tid now) ∨
          st' = st) as Htr.
  { inversion Hch as [now t Ht Hpend Hmet|tid now st0 Hst0 Hc1 Hc2
                     |now a Hco|outcome now a ty mc t Hco Ht Hop Hend]; subst.
    - left. unfold status_of in Hst. rewrite Ht in Hst. simpl in Hst.
      assert (st = PENDING) as -> by congruence. split; [constructor|done].
    - left. assert (st0 = st) as -> by congruence.
      split; [by constructor|eauto].
    - left. destruct (Hinv x _ Hco) as [Has _].
      assert (st = ASSIGNED) as -> by congruence. split; [constructor|done].
    - specialize (Hinv x _ Hco). destruct mc.
      + right. simpl. congruence.
      + destruct Hinv as [Hin _].
        assert (st = IN_PROGRESS) as -> by congruence.
        left. split; [|done].
        destruct outcome; simpl; try constructor.
        destruct (on_failure_status now t) as [-> | ->]; constructor. }
  destruct Htr as [[Htr Hfailed]| ->]; [|split_and!; auto].
  split_and!; [by right| |intros ->; right; by apply Hfailed].
  intros [-> | ->]; inversion Htr; congruence.
Qed.

Lemma status_changes_follow_transitions_witness :
  (PENDING = IN_PROGRESS ∨ transition IN_PROGRESS PENDING) ∧
  (IN_PROGRESS = COMPLETED ∨ IN_PROGRESS = CANCELLED → PENDING = IN_PROGRESS) ∧
  (IN_PROGRESS = FAILED →
   PENDING = FAILED ∨
   (PENDING = CANCELLED ∧ ∃ tid now, OpResume "T" RunRaised 3 = OpCancel tid now)).
Proof.
  apply (status_changes_follow_transitions
           state_in_progress (OpResume "T" RunRaised 3) "T" IN_PROGRESS PENDING).
  - apply state_in_progress_reachable.
  - exact I.
  - by vm_compute.
  - by vm_compute.
Defined.

End SchedulerStateMachine.

(** ** Communication: conversations *)

Module CommunicationConversations.
Import Core Communication.

Lemma get_set_eq {V} k (v : V) d : Dict.get k (Dict.set k v d) = Some v.
Proof.
  induction d as [|[k' v'] d IH]; simpl.
  - by rewrite decide_True.
  - destruct (decide (k = k')) as [->|Hne]; simpl.
    + by rewrite decide_True.
    + by rewrite decide_False.
Qed.

Section WithUuid.
Variable uuid4 : nat → string.

Lemma send_system_message_fields cid message sender s :
  let s' := _send_system_message_to_conversation cid message sender s in
  conversations s' = conversations s ∧
  agent_directory s' = agent_directory s ∧
  active_conversations s' = active_conversations s.
Proof.
  unfold _send_system_message_to_conversation. simpl.
  destruct (Dict.get cid (conversations s)) as [c|]; [|done].
  by destruct (filter _ _).
Qed.

Lemma remaining_after_first (p1 p2 : string) c s :
  participants c = [p1; p2] → p1 ≠ p2 →
  Dict.mem p2 (agent_directory s) = true →
  remaining_participants p1 c s = [p2].
Proof.
  intros Hp Hne Hm. unfold remaining_participants. rewrite Hp.
  rewrite filter_cons, decide_False by tauto.
  rewrite filter_cons, decide_True by auto.
  by rewrite filter_nil.
Qed.

Lemma remaining_after_second (p1 p2 : string) c s :
  participants c = [p1; p2] → p1 ≠ p2 →
  Dict.mem p1 (agent_directory s) = true →
  remaining_participants p2 c s = [p1].
Proof.
  intros Hp Hne Hm. unfold remaining_participants. rewrite Hp.
  rewrite filter_cons, decide_True by auto.
  rewrite filter_cons, decide_False by tauto.
  by rewrite filter_nil.
Qed.

(** Leaving a conversation of two registered agents only logs the
    departure: the participant list, the status and the set of active
    conversations stay as they were. *)
Lemma leave_keeps_open c (p q : string) now s conv :
  Dict.get c (conversations s) = Some conv →
  p ∈ participants conv →
  remaining_participants p conv s ≠ [] →
  let s' := (leave_conversation c p now s).2 in
  Dict.get c (conversations s') = Some (depart p now conv false) ∧
  agent_directory s' = agent_directory s ∧
  active_conversations s' = active_conversations s.
Proof.
  intros Hget Hin Hrem. unfold leave_conversation. rewrite Hget.
  rewrite (bool_decide_eq_true_2 _ Hin). simpl.
  match goal with
  | |- context [_send_system_message_to_conversation c ?m ?x ?s0] =>
      destruct (send_system_message_fields c m x s0) as (Hc & Hd & Ha)
  end.
  assert (remaining_participants p conv
            (_send_system_message_to_conversation c "participant_left" "system"
               (set_conversations
                  (Dict.set c (depart p now conv false) (conversations s)) s))
          = remaining_participants p conv s) as Hsame.
  { unfold remaining_participants. by rewrite Hd. }
  rewrite Hsame, (bool_decide_eq_false_2 _ Hrem). simpl.
  rewrite Hc, Hd, Ha. simpl. by rewrite get_set_eq.
Qed.

End WithUuid.

(** Two agents registered without handlers, in a group conversation
    created by the first. *)
Definition uuid_demo (n : nat) : string := "uuid-" +:+ pretty n.

Definition two_agents : State :=
  register_agent "P2" TASK [] None 2 (register_agent "P1" MANAGER [] None 1 init).

Definition in_conversation : State :=
  (create_group_conversation uuid_demo "P1" ["P2"] "handover" None 3 two_agents).2.

(** C6 on the code: after both participants of a conversation {P1, P2}
    have left through [leave_conversation] (neither was the last
    registered participant when leaving), the conversation still has the
    status it had and is still in the active set whenever it was. *)
Theorem conversation_stays_open_after_both_leave
    (c p1 p2 : string) (n1 n2 : Z) (s : State) (conv : AgentConversation) :
  Dict.get c (conversations s) = Some conv →
  participants conv = [p1; p2] →
  p1 ≠ p2 →
  Dict.mem p1 (agent_directory s) = true →
  Dict.mem p2 (agent_directory s) = true →
  let s' := (leave_conversation c p2 n2 (leave_conversation c p1 n1 s).2).2 in
  conv_status <$> Dict.get c (conversations s') = Some (conv_status conv) ∧
  (c ∈ active_conversations s → c ∈ active_conversations s').
Proof.
  intros Hget Hp Hne H1 H2.
  destruct (leave_keeps_open c p1 p2 n1 s conv Hget) as (Hget1 & Hd1 & Ha1).
  { rewrite Hp. apply list_elem_of_here. }
  { by rewrite (remaining_after_first p1 p2 conv s Hp Hne H2). }
  set (s1 := (leave_conversation c p1 n1 s).2) in *.
  destruct (leave_keeps_open c p2 p1 n2 s1 _ Hget1) as (Hget2 & Hd2 & Ha2).
  { simpl. rewrite Hp. apply list_elem_of_further, list_elem_of_here. }
  { rewrite (remaining_after_second p1 p2 _ s1); [done|done|done|by rewrite Hd1]. }
  simpl. rewrite Hget2, Ha2, Ha1. by split.
Qed.

Lemma conversation_stays_open_witness :
  let s' := (leave_conversation "uuid-0" "P2" 5
               (leave_conversation "uuid-0" "P1" 4 in_conversation).2).2 in
  conv_status <$> Dict.get "uuid-0" (conversations s') = Some "active" ∧
  ("uuid-0" ∈ active_conversations in_conversation →
   "uuid-0" ∈ active_conversations s').
Proof.
  apply (conversation_stays_open_after_both_leave "uuid-0" "P1" "P2" 4 5
           in_conversation
           (mkConversation "uuid-0" ["P1"; "P2"] "handover" [] "active" 3 3 [])).
  - by vm_compute.
  - reflexivity.
  - discriminate.
  - by vm_compute.
  - by vm_compute.
Defined.

(** The sibling path: when both participants are unregistered the
    conversation is closed and taken out of the active set. *)
Example both_unregistered_closes :
  let s' := unregister_agent "P2" 5 (unregister_agent "P1" 4 in_conversation) in
  conv_status <$> Dict.get "uuid-0" (conversations s') = Some "closed" ∧
  bool_decide ("uuid-0" ∈ active_conversations in_conversation) = true ∧
  bool_decide ("uuid-0" ∈ active_conversations s') = false.
Proof. by vm_compute. Qed.

End CommunicationConversations.

(** ** Communication: broadcast *)

Module CommunicationBroadcast.
Import Core Communication.

(** The handler calls made between two states. *)
Definition delivered_since (s s' : State) : list (string * string) :=
  drop (length (deliveries s)) (deliveries s').

(** The handler calls the delivery loop makes for message [mid]. *)
Definition dispatched (mid : string) (rs : list string) (s : State)
  : list (string * string) :=
  omap (λ r, match message_handlers s !! r with
             | Some _ => Some (r, mid)
             | None => None
             end) rs.

Lemma elem_of_dispatched a mid' mid rs s :
  (a, mid') ∈ dispatched mid rs s ↔
  mid' = mid ∧ a ∈ rs ∧ is_Some (message_handlers s !! a).
Proof.
  unfold dispatched. rewrite list_elem_of_omap. split.
  - intros (r & Hr & Hsome).
    destruct (message_handlers s !! r) as [h|] eqn:Hh; [|done].
    injection Hsome as -> ->. rewrite Hh. eauto.
  - intros (-> & Hin & [h Hh]). exists a. by rewrite Hh.
Qed.

Section WithUuid.
Variable uuid4 : nat → string.

(** What a send changes up to the end of its delivery loop. *)
Lemma send_and_deliver_effect m now s rs m' s' :
  send_and_deliver uuid4 m now s = Some (rs, m', s') →
  message_handlers s' = message_handlers s ∧
  agent_directory s' = agent_directory s ∧
  deliveries s' = deliveries s ++ dispatched (message_id m) rs s.
Proof.
  unfold send_and_deliver. destruct (negb (known s (sender m))); [done|].
  destruct (negb _ && _); [done|].
  destruct (truthy _) as [cid|].
  - destruct (Dict.get cid (conversations s)); intros [= <- <- <-]; by simpl.
  - simpl. intros [= <- <- <-]; by simpl.
Qed.

Lemma send_and_deliver_broadcast m now s :
  type m = BROADCAST →
  Dict.mem (sender m) (agent_directory s) = true →
  ∃ m' s', send_and_deliver uuid4 m now s = Some (broadcast_recipients m s, m', s').
Proof.
  intros Hty Hsender. unfold send_and_deliver, known.
  rewrite Hsender, (bool_decide_eq_true_2 _ Hty). simpl.
  destruct (truthy _) as [cid|]; [destruct (Dict.get cid (conversations s))|];
    simpl; eauto.
Qed.

(** One round of the acknowledgment loop. *)
Definition ack_round (m' : AgentMessage) (now : Z) (acc : State) (recipient : string)
  : State :=
  if Dict.mem recipient (agent_directory acc) then
    let '(mid, acc1) := fresh_uuid uuid4 acc in
    match send_and_deliver uuid4 (ack_message mid m' now) now acc1 with
    | Some (_, _, acc2) => acc2
    | None => acc1
    end
  else acc.

Lemma send_message_unfold m now s :
  send_message uuid4 m now s =
    match send_and_deliver uuid4 m now s with
    | None => (None, s)
    | Some (rs, m', s1) =>
        (Some (message_id m),
         if requires_acknowledgment m' then foldl (ack_round m' now) s1 rs else s1)
    end.
Proof. reflexivity. Qed.

(** Acknowledgments only add handler calls for messages whose ids come
    from the generator. *)
Lemma ack_rounds_deliveries m' now rs s1 :
  ∃ acks, deliveries (foldl (ack_round m' now) s1 rs) = deliveries s1 ++ acks ∧
          Forall (λ e, ∃ k, e.2 = uuid4 k) acks.
Proof.
  revert s1. induction rs as [|r rs IH]; intros s1; simpl.
  - exists []. by rewrite app_nil_r.
  - assert (∃ acks1, deliveries (ack_round m' now s1 r) = deliveries s1 ++ acks1 ∧
                     Forall (λ e, ∃ k, e.2 = uuid4 k) acks1) as (acks1 & E1 & F1).
    { unfold ack_round. destruct (Dict.mem r (agent_directory s1)).
      2:{ exists []. by rewrite app_nil_r. }
      simpl.
      destruct (send_and_deliver _ _ _ _) as [[[rs' m2] s2]|] eqn:Hsend.
      - destruct (send_and_deliver_effect _ _ _ _ _ _ Hsend) as (_ & _ & ->).
        eexists. split; [done|].
        apply Forall_forall. intros [a mid] Hin.
        apply elem_of_dispatched in Hin as (-> & _ & _). simpl. eauto.
      - exists []. by rewrite app_nil_r. }
    destruct (IH (ack_round m' now s1 r)) as (acks2 & E2 & F2).
    exists (acks1 ++ acks2). rewrite E2, E1, app_assoc. split; [done|].
    by apply Forall_app.
Qed.

End WithUuid.

(** X and Z registered with a handler, Y without one. *)
Definition three_agents : State :=
  register_agent "Z" TASK [] (Some HandlerReturns) 3
    (register_agent "Y" TASK [] None 2
       (register_agent "X" MANAGER [] (Some HandlerReturns) 1 init)).

Definition announcement : AgentMessage :=
  mkMessage "m-1" BROADCAST "X" [] "status" "all systems nominal" None None 4 1
    None false.

(** C7, as stated, fails: Y is registered and is among the resolved
    recipients of X's broadcast, but it has no message handler and the
    message is not delivered to it; only Z's handler is called. *)
Lemma c7_agent_without_handler_not_reached :
  (λ r, r.1.1) <$> send_and_deliver CommunicationConversations.uuid_demo
                     announcement 4 three_agents = Some ["Y"; "Z"] ∧
  deliveries (send_message CommunicationConversations.uuid_demo
                announcement 4 three_agents).2 = [("Z", "m-1")].
Proof. by vm_compute. Qed.

(** C7, amended: a BROADCAST message sent by a registered agent X is
    accepted, its recipients are resolved at send time to exactly the
    registered agents other than X, the handler of each of those agents
    that has a registered message handler is called with it, and it is
    never delivered to X (generated ids being different from the
    message's own id). *)
Theorem broadcast_reaches_other_agents_with_handler
    (uuid4 : nat → string) (m : AgentMessage) (now : Z) (s : State) :
  type m = BROADCAST →
  Dict.mem (sender m) (agent_directory s) = true →
  (∀ k, uuid4 k ≠ message_id m) →
  ∃ rs m' s1,
    send_and_deliver uuid4 m now s = Some (rs, m', s1) ∧
    (send_message uuid4 m now s).1 = Some (message_id m) ∧
    (∀ a, a ∈ rs ↔ a ∈ Dict.keys (agent_directory s) ∧ a ≠ sender m) ∧
    (∀ a, (a, message_id m) ∈ delivered_since s (send_message uuid4 m now s).2 ↔
          a ∈ rs ∧ is_Some (message_handlers s !! a)) ∧
    (sender m, message_id m) ∉ delivered_since s (send_message uuid4 m now s).2.
Proof.
  intros Hty Hsender Hfresh.
  destruct (send_and_deliver_broadcast uuid4 m now s Hty Hsender) as (m' & s1 & Hsend).
  destruct (send_and_deliver_effect uuid4 _ _ _ _ _ _ Hsend) as (Hh & Hd & Hdel).
  assert (∀ a, a ∈ broadcast_recipients m s ↔
               a ∈ Dict.keys (agent_directory s) ∧ a ≠ sender m) as Hrs.
  { intros a. unfold broadcast_recipients. rewrite list_elem_of_filter. tauto. }
  assert (∀ a, (a, message_id m) ∈ delivered_since s (send_message uuid4 m now s).2 ↔
               a ∈ broadcast_recipients m s ∧ is_Some (message_handlers s !! a)) as Hiff.
  { intros a. rewrite send_message_unfold, Hsend. simpl.
    assert (∃ acks,
              delivered_since s
                (if requires_acknowledgment m'
                 then foldl (ack_round uuid4 m' now) s1 (broadcast_recipients m s)
                 else s1)
              = dispatched (message_id m) (broadcast_recipients m s) s ++ acks ∧
              Forall (λ e, ∃ k, e.2 = uuid4 k) acks) as (acks & -> & Hacks).
    { unfold delivered_since. destruct (requires_acknowledgment m').
      - destruct (ack_rounds_deliveries uuid4 m' now (broadcast_recipients m s) s1)
          as (acks & -> & Hacks).
        exists acks. rewrite Hdel, <- app_assoc, drop_app_length. done.
      - exists []. rewrite Hdel, drop_app_length, app_nil_r. done. }
    rewrite elem_of_app, elem_of_dispatched. split.
    - intros [(_ & Hin & Hsome)|Hin]; [done|].
      rewrite Forall_forall in Hacks. destruct (Hacks _ Hin) as [k Hk].
      simpl in Hk. symmetry in Hk. by apply Hfresh in Hk.
    - intros [Hin Hsome]. left. done. }
  exists (broadcast_recipients m s), m', s1. split_and!; try done.
  - by rewrite send_message_unfold, Hsend.
  - intros Hin. apply Hiff in Hin as [Hin _]. apply Hrs in Hin as [_ Hne]. done.
Qed.

Lemma broadcast_reaches_other_agents_witness :
  ∃ rs m' s1,
    send_and_deliver CommunicationConversations.uuid_demo announcement 4 three_agents
      = Some (rs, m', s1) ∧
    (send_message CommunicationConversations.uuid_demo announcement 4 three_agents).1
      = Some "m-1" ∧
    (∀ a, a ∈ rs ↔ a ∈ Dict.keys (agent_directory three_agents) ∧ a ≠ "X") ∧
    (∀ a, (a, "m-1") ∈ delivered_since three_agents
             (send_message CommunicationConversations.uuid_demo announcement 4
                three_agents).2 ↔
          a ∈ rs ∧ is_Some (message_handlers three_agents !! a)) ∧
    ("X", "m-1") ∉ delivered_since three_agents
      (send_message CommunicationConversations.uuid_demo announcement 4 three_agents).2.
Proof.
  apply (broadcast_reaches_other_agents_with_handler
           CommunicationConversations.uuid_demo announcement 4 three_agents).
  - reflexivity.
  - by vm_compute.
  - intros k. unfold CommunicationConversations.uuid_demo. simpl. discriminate.
Defined.

End CommunicationBroadcast.

(** ** Executor *)

Module ExecutorProps.
Import Executor.

Section WithFormat.
Variable format_type : ActionType → string.

Ltac finished H := unfold finish in H; simplify_eq; simpl; try done.

Lemma execute_action_handlers fuel a s r s' :
  execute_action format_type fuel a s = Some (r, s') →
  action_handlers s' = action_handlers s.
Proof.
  revert a s r s'. induction fuel as [|fuel IH]; intros a s r s' H; [done|].
  simpl in H. destruct (action_handlers s !! type a) as [h|]; [|by simplify_eq].
  destruct (ending (h a)) as [v| | |msg]; try by finished H.
  destruct (retryable a && (1 <? max_retries a)); [|by finished H].
  destruct (execute_action _ _ _ _) as [[r1 s4]|] eqn:Hretry; [|done].
  apply IH in Hretry. simpl in H, Hretry.
  destruct (success r1); [|by finished H].
  destruct (retried_result _ _ _ _); by finished H.
Qed.




End WithFormat.

(** An API call without a URL: the handler raises [ValueError] every time
    it is called; the action has the default [retryable = True] and
    [max_retries = 3]. *)
Definition url_missing : Handler := λ _, mkExecution (Raised "URL is required for API call action") 0.



Definition executor_demo : State :=
  register_handler NOTIFICATION (λ _, mkExecution (Returned "sent") 1)
    (register_handler API_CALL url_missing (mkState ∅ ∅ ∅ 0)).



(** C10: when the action's type has no handler in the registry,
    [execute_action] returns a failed result whose error names the type,
    with one attempt and duration 0, and the executor state is the one it
    started from. *)
Theorem action_without_handler_fails_cleanly
    (format_type : ActionType → string) (fuel : nat) (a : Action) (s : State) :
  action_handlers s !! type a = None →
  ∃ r, execute_action format_type (S fuel) a s = Some (r, s) ∧
       result_action_id r = action_id a ∧
       success r = false ∧
       result r = None ∧
       error r = Some ("No handler registered for action type: "
                       +:+ format_type (type a)) ∧
       attempts r = 1 ∧
       duration_seconds r = 0.
Proof.
  intros Hnone. simpl. rewrite Hnone. eexists. split; [reflexivity|]. by simpl.
Qed.

Lemma action_without_handler_witness :
  ∃ r, execute_action (λ _, "sms") 1
         (mkAction "a-3" SMS "text" "text the owner" "{}" 300 true 3 [] None None 0 [])
         executor_demo = Some (r, executor_demo) ∧
       result_action_id r = "a-3" ∧
       success r = false ∧
       result r = None ∧
       error r = Some "No handler registered for action type: sms" ∧
       attempts r = 1 ∧
       duration_seconds r = 0.
Proof.
  apply (action_without_handler_fails_cleanly (λ _, "sms") 0
           (mkAction "a-3" SMS "text" "text the owner" "{}" 300 true 3 [] None None 0 [])
           executor_demo).
  by vm_compute.
Defined.

End ExecutorProps.

(** ** Regular expressions: what a match consumes *)

Module RegexProps.
Import Regex.

(** All characters of a text are whitespace. *)
Definition blank (t : text) : Prop := Forall (λ c, isspace c = true) t.

Lemma head_elem_of {A} (l : list A) x : head l = Some x → x ∈ l.
Proof. destruct l; [done|]. intros [= ->]. apply list_elem_of_here. Qed.

Lemma head_bind {A B} (l : list A) (f : A → list B) x :
  head (l ≫= f) = Some x → ∃ y, y ∈ l ∧ head (f y) = Some x.
Proof.
  induction l as [|y l IH]; [done|].
  change ((y :: l) ≫= f) with (f y ++ (l ≫= f)).
  destruct (f y) as [|z tl] eqn:Hfy; simpl.
  - intros H. destruct (IH H) as (y' & Hin & Hhead).
    exists y'. split; [by apply list_elem_of_further|done].
  - intros [= ->]. exists y. split; [apply list_elem_of_here|by rewrite Hfy].
Qed.

Lemma head_bind_first {A B} (y : A) (l : list A) (f : A → list B) :
  f y ≠ [] → head ((y :: l) ≫= f) = head (f y).
Proof.
  intros Hne. change ((y :: l) ≫= f) with (f y ++ (l ≫= f)).
  by destruct (f y).
Qed.

Lemma after_literal_Some cs l l' : after_literal cs l = Some l' ↔ l = cs ++ l'.
Proof.
  revert l. induction cs as [|c cs IH]; intros l; simpl.
  - split; congruence.
  - destruct l as [|x l]; [split; [done|by intros ?]|].
    destruct (decide (c = x)) as [->|Hne].
    + rewrite IH. split; [by intros ->|by intros [= ->]].
    + split; [done|]. intros [= ? ?]. done.
Qed.

(** The text left after the longest run of characters of a class. *)
Fixpoint skip (p : char → bool) (l : text) : text :=
  match l with
  | c :: l' => if p c then skip p l' else l
  | [] => []
  end.

Lemma skip_head p l c l' : skip p l = c :: l' → p c = false.
Proof.
  induction l as [|x l IH]; simpl; [done|].
  destruct (p x) eqn:Hx; [done|]. by intros [= <- _].
Qed.

Lemma skip_nil p l : skip p l = [] → Forall (λ c, p c = true) l.
Proof.
  induction l as [|x l IH]; simpl; [by constructor|].
  destruct (p x) eqn:Hx; [|done]. intros H. constructor; auto.
Qed.

Lemma lstrip_skip t : lstrip t = skip isspace t.
Proof. induction t as [|c t IH]; simpl; [done|]. by rewrite IH. Qed.

(** A greedy repetition is tried longest first. *)
Lemma greedy_head p n l g :
  ∃ m tl, greedy p n l g = mkM m (skip p l) g :: tl.
Proof.
  revert n. induction l as [|c l IH]; intros n; simpl; [eauto|].
  destruct (p c); [|eauto].
  destruct (IH (S n)) as (m & tl & ->). simpl. eauto.
Qed.

Lemma elem_of_greedy p n l g st :
  st ∈ greedy p n l g ↔
  ∃ w, l = w ++ rest st ∧ Forall (λ c, p c = true) w ∧
       pos st = (n + length w)%nat ∧ group1 st = g.
Proof.
  revert n. induction l as [|c l IH]; intros n; simpl.
  - rewrite list_elem_of_singleton. split.
    + intros ->. exists []. simpl. split_and!; auto.
    + intros (w & Hl & _ & Hpos & Hg). destruct w; [|done].
      destruct st. simpl in *. subst. f_equal. lia.
  - assert (st = mkM n (c :: l) g ↔
            ∃ w, c :: l = w ++ rest st ∧ w = [] ∧
                 pos st = (n + length w)%nat ∧ group1 st = g) as Hhere.
    { split.
      - intros ->. exists []. simpl. split_and!; auto.
      - intros (w & Hl & -> & Hpos & Hg).
        destruct st. simpl in *. subst. f_equal. lia. }
    destruct (p c) eqn:Hc.
    + rewrite elem_of_app, IH, list_elem_of_singleton, Hhere. split.
      * intros [(w & -> & Hw & Hpos & Hg)|(w & Hl & -> & Hpos & Hg)].
        -- exists (c :: w). simpl. split_and!; auto. lia.
        -- exists []. split_and!; auto.
      * intros ([|x w] & Hl & Hw & Hpos & Hg).
        -- right. exists []. split_and!; auto.
        -- left. simpl in Hl. injection Hl as -> ->.
           exists w. inversion Hw; subst. simpl in Hpos. split_and!; auto. lia.
    + rewrite list_elem_of_singleton, Hhere. split.
      * intros (w & Hl & -> & Hpos & Hg). exists []. split_and!; auto.
      * intros ([|x w] & Hl & Hw & Hpos & Hg).
        -- exists []. split_and!; auto.
        -- simpl in Hl. injection Hl as -> ->. inversion Hw; subst. congruence.
Qed.

Lemma elem_of_spans p n l g st :
  st ∈ spans p n l g ↔
  ∃ w, l = w ++ rest st ∧ Forall (λ c, p c = true) w ∧
       pos st = (n + length w)%nat ∧ group1 st = g.
Proof.
  revert n. induction l as [|c l IH]; intros n; simpl.
  - rewrite list_elem_of_singleton. split.
    + intros ->. exists []. simpl. split_and!; auto.
    + intros (w & Hl & _ & Hpos & Hg). destruct w; [|done].
      destruct st. simpl in *. subst. f_equal. lia.
  - rewrite elem_of_cons. split.
    + intros [->|Hin].
      * exists []. simpl. split_and!; auto.
      * destruct (p c) eqn:Hc; [|by apply elem_of_nil in Hin].
        apply IH in Hin as (w & -> & Hw & Hpos & Hg).
        exists (c :: w). simpl. split_and!; auto. lia.
    + intros ([|x w] & Hl & Hw & Hpos & Hg).
      * left. destruct st. simpl in *. subst. f_equal. lia.
      * right. simpl in Hl. injection Hl as -> ->. inversion Hw; subst.
        rewrite H1. apply IH. exists w. simpl in Hpos. split_and!; auto. lia.
Qed.

(** Whatever a pattern matches is a prefix of the text it was given. *)
Lemma matches_consumes r st st' :
  st' ∈ matches r st →
  ∃ w, rest st = w ++ rest st' ∧ pos st' = (pos st + length w)%nat.
Proof.
  revert st st'. induction r as [cs|p| | |r1 IH1 r2 IH2|r1 IH1 r2 IH2|p|p|p|r IH];
    intros st st'; simpl.
  - destruct (after_literal cs (rest st)) as [l'|] eqn:Hl; [|by intros ?%elem_of_nil].
    intros ->%list_elem_of_singleton. apply after_literal_Some in Hl. simpl. eauto.
  - destruct (rest st) as [|c l'] eqn:Hrest; [by intros ?%elem_of_nil|].
    destruct (p c); [|by intros ?%elem_of_nil].
    intros ->%list_elem_of_singleton. exists [c]. simpl. split; [done|lia].
  - destruct (decide _); [|by intros ?%elem_of_nil].
    intros ->%list_elem_of_singleton. exists []. simpl. split; [done|lia].
  - destruct (rest st) as [|c [|]] eqn:Hrest; try by intros ?%elem_of_nil.
    + intros ->%list_elem_of_singleton. exists []. simpl. split; [done|lia].
    + destruct (decide _); [|by intros ?%elem_of_nil].
      intros ->%list_elem_of_singleton. exists []. simpl. split; [done|lia].
  - intros (st1 & H2 & H1)%list_elem_of_bind.
    destruct (IH1 _ _ H1) as (w1 & E1 & P1). destruct (IH2 _ _ H2) as (w2 & E2 & P2).
    exists (w1 ++ w2). rewrite E1, E2, <- app_assoc, length_app. split; [done|lia].
  - intros [H|H]%elem_of_app; eauto.
  - intros (w & E & _ & P & _)%elem_of_greedy. eauto.
  - intros (w & E & _ & P & _)%elem_of_spans. eauto.
  - destruct (rest st) as [|c l'] eqn:Hrest; [by intros ?%elem_of_nil|].
    destruct (p c); [|by intros ?%elem_of_nil].
    intros (w & E & _ & P & _)%elem_of_greedy.
    exists (c :: w). simpl. rewrite E. split; [done|lia].
  - intros (st1 & -> & H1)%list_elem_of_fmap. simpl. eauto.
Qed.

(** Patterns without a capturing group. *)
Fixpoint group_free (r : regex) : bool :=
  match r with
  | Seq r1 r2 | Alt r1 r2 => group_free r1 && group_free r2
  | Group _ => false
  | _ => true
  end.

Lemma matches_group_free r st st' :
  group_free r = true → st' ∈ matches r st → group1 st' = group1 st.
Proof.
  revert st st'. induction r as [cs|p| | |r1 IH1 r2 IH2|r1 IH1 r2 IH2|p|p|p|r IH];
    intros st st' Hfree; simpl.
  - destruct (after_literal cs (rest st)); [|by intros ?%elem_of_nil].
    by intros ->%list_elem_of_singleton.
  - destruct (rest st) as [|c l']; [by intros ?%elem_of_nil|].
    destruct (p c); [|by intros ?%elem_of_nil]. by intros ->%list_elem_of_singleton.
  - destruct (decide _); [|by intros ?%elem_of_nil]. by intros ->%list_elem_of_singleton.
  - destruct (rest st) as [|c [|]]; try by intros ?%elem_of_nil.
    + by intros ->%list_elem_of_singleton.
    + destruct (decide _); [|by intros ?%elem_of_nil]. by intros ->%list_elem_of_singleton.
  - simpl in Hfree. apply andb_true_iff in Hfree as [F1 F2].
    intros (st1 & H2 & H1)%list_elem_of_bind.
    rewrite (IH2 _ _ F2 H2). by apply IH1.
  - simpl in Hfree. apply andb_true_iff in Hfree as [F1 F2].
    intros [H|H]%elem_of_app; auto.
  - by intros (w & _ & _ & _ & ?)%elem_of_greedy.
  - by intros (w & _ & _ & _ & ?)%elem_of_spans.
  - destruct (rest st) as [|c l']; [by intros ?%elem_of_nil|].
    destruct (p c); [|by intros ?%elem_of_nil].
    by intros (w & _ & _ & _ & ?)%elem_of_greedy.
  - done.
Qed.

(** A successful search stands at some index of the text. *)
Lemma search_from_Some r n l st :
  search_from r n l = Some st →
  ∃ pre suffix, l = pre ++ suffix ∧
    head (matches r (mkM (n + length pre) suffix None)) = Some st.
Proof.
  revert n. induction l as [|c l IH]; intros n; simpl.
  - destruct (matches r (mkM n [] None)) as [|st0 tl] eqn:Hm; [done|].
    intros [= ->]. exists [], []. simpl. rewrite Nat.add_0_r, Hm. done.
  - destruct (matches r (mkM n (c :: l) None)) as [|st0 tl] eqn:Hm.
    + intros H. destruct (IH _ H) as (pre & suffix & -> & Hhead).
      exists (c :: pre), suffix. simpl. split; [done|].
      by replace (n + S (length pre))%nat with (S n + length pre)%nat by lia.
    + intros [= ->]. exists [], (c :: l). simpl. rewrite Nat.add_0_r, Hm. done.
Qed.

Lemma search_from_here r n l st tl :
  matches r (mkM n l None) = st :: tl → search_from r n l = Some st.
Proof. intros H. destruct l; simpl; by rewrite H. Qed.

End RegexProps.

(** ** The decision parser *)

Module DecisionProps.
Import Regex RegexProps DecisionEngine.

(** What follows the captured text of a section: [(?:\n\s*\*\*|$)]. *)
Definition section_end : regex :=
  Alt (Seq (Str [newline]) (Seq (Star isspace) (Str (of_string "**")))) Eol.

(** [(.*?)(?:\n\s*\*\*|$)] *)
Definition section_body : regex := Seq (Group (StarLazy any)) section_end.

(** [\s*(.*?)(?:\n\s*\*\*|$)] *)
Definition section_tail : regex := Seq (Star isspace) section_body.

Lemma section_pattern_unfold marker :
  section_pattern marker = Seq line_start (Seq (Str marker) section_tail).
Proof. reflexivity. Qed.

(** The lazy body can always run to the end of the text. *)
Lemma section_body_matches st : matches section_body st ≠ [].
Proof.
  assert (mkM (pos st + length (rest st)) [] (Some (rest st))
            ∈ matches section_body st) as Hin.
  { unfold section_body. cbn [matches]. apply list_elem_of_bind.
    exists (mkM (pos st + length (rest st)) [] (Some (rest st))). split.
    - unfold section_end. cbn [matches]. apply elem_of_app. right.
      simpl. apply list_elem_of_here.
    - apply list_elem_of_fmap.
      exists (mkM (pos st + length (rest st)) [] (group1 st)). split.
      + simpl. f_equal. f_equal.
        replace (pos st + length (rest st) - pos st)%nat with (length (rest st)) by lia.
        by rewrite firstn_all.
      + apply elem_of_spans. exists (rest st). simpl.
        rewrite app_nil_r. split_and!; auto.
        apply Forall_forall. done. }
  intros Hnil. rewrite Hnil in Hin. by apply elem_of_nil in Hin.
Qed.

Lemma section_end_needs_newline s c l :
  rest s = c :: l → c ≠ newline → matches section_end s = [].
Proof.
  intros Hrest Hc. unfold section_end. cbn [matches after_literal].
  rewrite Hrest. rewrite decide_False by congruence.
  destruct l; [by rewrite decide_False|done].
Qed.

(** The captured text starts where the body starts; it is empty only
    when the body starts at the end of the text or at its final newline. *)
Lemma section_body_group st st' :
  st' ∈ matches section_body st →
  ∃ g, group1 st' = Some g ∧
       match rest st with
       | [] => g = []
       | c :: _ => c ≠ newline → ∃ g', g = c :: g'
       end.
Proof.
  unfold section_body. cbn [matches].
  intros (s1 & Hend & Hgroup)%list_elem_of_bind.
  apply list_elem_of_fmap in Hgroup as (s0 & -> & Hspan).
  apply elem_of_spans in Hspan as (w & Hrest & _ & Hpos & _).
  assert (group_free section_end = true) as Hfree by reflexivity.
  rewrite (matches_group_free _ _ _ Hfree Hend). simpl.
  replace (pos s0 - pos st)%nat with (length w) by lia.
  rewrite Hrest, take_app_length. exists w. split; [done|].
  destruct w as [|c w]; simpl.
  - destruct (rest s0) as [|c l] eqn:Hs0; [done|].
    intros Hc. exfalso.
    rewrite (section_end_needs_newline _ c l) in Hend by done.
    by apply elem_of_nil in Hend.
  - eauto.
Qed.

(** After the marker the whitespace is skipped as far as it goes. *)
Lemma section_tail_head st st' :
  head (matches section_tail st) = Some st' →
  ∃ m, st' ∈ matches section_body (mkM m (skip isspace (rest st)) (group1 st)).
Proof.
  unfold section_tail. cbn [matches].
  destruct (greedy_head isspace (pos st) (rest st) (group1 st)) as (m & tl & ->).
  rewrite head_bind_first by apply section_body_matches.
  intros H%head_elem_of. eauto.
Qed.

Lemma isspace_newline : isspace newline = true.
Proof. reflexivity. Qed.

Lemma line_start_consumes st s1 :
  s1 ∈ matches line_start st →
  ∃ w, rest st = w ++ rest s1 ∧ blank w ∧ group1 s1 = group1 st.
Proof.
  unfold line_start. cbn [matches].
  intros (s0 & Hws & Hstart)%list_elem_of_bind.
  apply elem_of_greedy in Hws as (w & Hw & Hblank & _ & Hg).
  apply elem_of_app in Hstart as [Hstart|Hstart].
  - destruct (decide _); [|by apply elem_of_nil in Hstart].
    apply list_elem_of_singleton in Hstart as ->. exists w. by rewrite Hg.
  - simpl in Hstart. destruct (rest st) as [|c l] eqn:Hrest;
      [by apply elem_of_nil in Hstart|].
    destruct (decide (newline = c)) as [<-|]; [|by apply elem_of_nil in Hstart].
    apply list_elem_of_singleton in Hstart as ->. simpl in *.
    exists (newline :: w). rewrite Hw, Hg. simpl. split_and!; auto.
    constructor; [apply isspace_newline|done].
Qed.

(** The first match of a section at a position: the marker stands after
    whitespace only, and the captured text is either empty, with nothing
    but whitespace after the marker, or starts with a character that is
    not whitespace. *)
Lemma section_match marker st st' :
  head (matches (section_pattern marker) st) = Some st' →
  ∃ w l2 g, rest st = w ++ marker ++ l2 ∧ blank w ∧ group1 st' = Some g ∧
            (blank l2 ∧ g = [] ∨ ∃ c g', g = c :: g' ∧ isspace c = false).
Proof.
  rewrite section_pattern_unfold. cbn [matches].
  intros (s1 & Hs1 & H)%head_bind.
  apply head_bind in H as (s2 & Hs2 & H).
  apply section_tail_head in H as (m & H).
  apply line_start_consumes in Hs1 as (w & Hw & Hblank & _).
  simpl in Hs2.
  destruct (after_literal marker (rest s1)) as [l2|] eqn:Hl;
    [|by apply elem_of_nil in Hs2].
  apply list_elem_of_singleton in Hs2 as ->. cbn [rest group1] in H.
  apply after_literal_Some in Hl.
  apply section_body_group in H as (g & Hg & Hshape). cbn [rest] in Hshape.
  exists w, l2, g. rewrite Hw, Hl. split_and!; auto.
  destruct (skip isspace l2) as [|c l] eqn:Hskip.
  - left. split; [by apply skip_nil|done].
  - right. pose proof (skip_head _ _ _ _ Hskip) as Hc.
    destruct Hshape as [g' ->]; [|eauto].
    intros ->. by rewrite isspace_newline in Hc.
Qed.

Lemma section_tail_matches st : matches section_tail st ≠ [].
Proof.
  unfold section_tail. cbn [matches].
  destruct (greedy_head isspace (pos st) (rest st) (group1 st)) as (m & tl & ->).
  intros Hnil. apply (f_equal head) in Hnil.
  rewrite head_bind_first in Hnil by apply section_body_matches.
  pose proof (section_body_matches (mkM m (skip isspace (rest st)) (group1 st))).
  by destruct (matches section_body _).
Qed.

(** *** Sections that are present *)

(** The marker stands at the start of the text or of a line, after
    optional whitespace. *)
Definition at_line_start (pre : text) : Prop :=
  blank pre ∨ ∃ p ws, pre = p ++ newline :: ws ∧ blank ws.

(** Some character is not whitespace. *)
Definition has_content (post : text) : Prop :=
  ∃ c, c ∈ post ∧ isspace c = false.

(** A section is present with content: its marker stands at the start of
    a line and is followed, somewhere, by a character that is not
    whitespace. *)
Definition section_present (marker t : text) : Prop :=
  ∃ pre post, t = pre ++ marker ++ post ∧ at_line_start pre ∧ has_content post.

(** A marker of the response format: it starts with [*]. *)
Definition starred (marker : text) : Prop :=
  ∃ rest, marker = 42%N :: rest.

Lemma occurrence_suffix marker w l2 pre post :
  starred marker → blank w →
  w ++ marker ++ l2 = pre ++ marker ++ post →
  ∃ x, l2 = x ++ post.
Proof.
  intros [M ->] Hw. revert pre. induction Hw as [|a w Ha _ IH]; intros pre Heq.
  - exists (drop (length (42%N :: M)) (pre ++ 42%N :: M)).
    rewrite <- drop_app_le by (rewrite length_app; lia).
    rewrite <- app_assoc, <- Heq. simpl. by rewrite drop_app_length.
  - destruct pre as [|b pre]; simpl in Heq.
    + injection Heq as -> _. done.
    + injection Heq as _ Heq. by apply IH in Heq.
Qed.

Lemma found_here marker st st' pre post :
  starred marker →
  head (matches (section_pattern marker) st) = Some st' →
  rest st = pre ++ marker ++ post →
  has_content post →
  ∃ c g', group1 st' = Some (c :: g') ∧ isspace c = false.
Proof.
  intros Hstar Hhead Hrest (c & Hc & Hns).
  apply section_match in Hhead as (w & l2 & g & Hw & Hblank & Hg & [[Hl2 _]|Hcase]).
  - exfalso. rewrite Hw in Hrest.
    destruct (occurrence_suffix marker w l2 pre post Hstar Hblank Hrest) as [x ->].
    apply Forall_app in Hl2 as [_ Hpost].
    rewrite Forall_forall in Hpost. specialize (Hpost c Hc). congruence.
  - destruct Hcase as (c' & g' & -> & Hc'). eauto.
Qed.

Lemma matches_at_line_start marker n l ws post :
  blank ws →
  (n = 0%nat ∧ l = ws ++ marker ++ post) ∨ l = newline :: ws ++ marker ++ post →
  matches (section_pattern marker) (mkM n l None) ≠ [].
Proof.
  intros Hws Hl.
  assert (∃ m, mkM m (marker ++ post) None ∈ matches line_start (mkM n l None))
    as [m Hs1].
  { unfold line_start. cbn [matches].
    destruct Hl as [[-> ->]| ->].
    - exists (0 + length ws)%nat. apply list_elem_of_bind.
      exists (mkM 0 (ws ++ marker ++ post) None). split.
      + apply elem_of_greedy. exists ws. by simpl.
      + apply elem_of_app. left. simpl. apply list_elem_of_here.
    - exists (n + 1 + length ws)%nat. apply list_elem_of_bind.
      exists (mkM (n + 1) (ws ++ marker ++ post) None). split.
      + apply elem_of_greedy. exists ws. by simpl.
      + apply elem_of_app. right. cbn [matches after_literal rest].
        rewrite decide_True by done. apply list_elem_of_here. }
  destruct (matches section_tail (mkM (m + length marker) post None))
    as [|x tl] eqn:Htail; [by apply section_tail_matches in Htail|].
  assert (x ∈ matches (section_pattern marker) (mkM n l None)) as Hx.
  { rewrite section_pattern_unfold. cbn [matches]. apply list_elem_of_bind.
    exists (mkM m (marker ++ post) None). split; [|done].
    apply list_elem_of_bind. exists (mkM (m + length marker) post None). split.
    - rewrite Htail. apply list_elem_of_here.
    - cbn [matches rest pos group1].
      rewrite (proj2 (after_literal_Some marker (marker ++ post) post) eq_refl).
      apply list_elem_of_here. }
  intros Hnil. rewrite Hnil in Hx. by apply elem_of_nil in Hx.
Qed.

Lemma search_after_newline marker p n ws post :
  starred marker → blank ws → has_content post →
  ∃ st' c g',
    search_from (section_pattern marker) n (p ++ newline :: ws ++ marker ++ post)
      = Some st' ∧
    group1 st' = Some (c :: g') ∧ isspace c = false.
Proof.
  intros Hstar Hws Hpost. revert n. induction p as [|a p IH]; intros n.
  - cbn [app search_from].
    destruct (matches (section_pattern marker)
                (mkM n (newline :: ws ++ marker ++ post) None)) as [|st' tl] eqn:Hm.
    { exfalso. eapply matches_at_line_start; [exact Hws| |exact Hm]. by right. }
    destruct (found_here marker (mkM n (newline :: ws ++ marker ++ post) None) st'
                (newline :: ws) post Hstar) as (c & g' & Hg & Hc).
    + by rewrite Hm.
    + done.
    + done.
    + by exists st', c, g'.
  - cbn [app search_from].
    destruct (matches (section_pattern marker)
                (mkM n (a :: p ++ newline :: ws ++ marker ++ post) None))
      as [|st' tl] eqn:Hm; [apply IH|].
    destruct (found_here marker
                (mkM n (a :: p ++ newline :: ws ++ marker ++ post) None) st'
                (a :: p ++ newline :: ws) post Hstar) as (c & g' & Hg & Hc).
    + by rewrite Hm.
    + simpl. rewrite <- app_assoc. done.
    + done.
    + by exists st', c, g'.
Qed.

Lemma search_present marker t :
  starred marker → section_present marker t →
  ∃ st' c g', search (section_pattern marker) t = Some st' ∧
              group1 st' = Some (c :: g') ∧ isspace c = false.
Proof.
  intros Hstar (pre & post & -> & [Hblank|(p & ws & -> & Hws)] & Hpost).
  - unfold search.
    destruct (matches (section_pattern marker) (mkM 0 (pre ++ marker ++ post) None))
      as [|st' tl] eqn:Hm.
    { exfalso. eapply matches_at_line_start; [exact Hblank| |exact Hm]. by left. }
    destruct (found_here marker (mkM 0 (pre ++ marker ++ post) None) st'
                pre post Hstar) as (c & g' & Hg & Hc); [by rewrite Hm|done|done|].
    exists st', c, g'. split_and!; auto.
    by eapply search_from_here.
  - unfold search. rewrite <- app_assoc. simpl.
    by apply search_after_newline.
Qed.

Lemma lstrip_content l : has_content l → lstrip l ≠ [].
Proof.
  intros (c & Hin & Hc). induction l as [|x l IH]; [by apply elem_of_nil in Hin|].
  simpl. destruct (isspace x) eqn:Hx; [|done].
  apply elem_of_cons in Hin as [->|Hin]; [congruence|auto].
Qed.

Lemma strip_content c g : isspace c = false → strip (c :: g) ≠ [].
Proof.
  intros Hc. unfold strip. simpl. rewrite Hc.
  intros Hnil. apply (f_equal reverse) in Hnil.
  rewrite reverse_involutive in Hnil. simpl in Hnil.
  revert Hnil. apply lstrip_content. exists c. split; [|done].
  rewrite reverse_cons. apply elem_of_app. right. apply list_elem_of_here.
Qed.

(** The text of a section that is present with content is not empty. *)
Lemma section_text_present marker t :
  starred marker → section_present marker t →
  ∃ body, section_text marker t = Some body ∧ body ≠ [].
Proof.
  intros Hstar Hpresent.
  destruct (search_present marker t Hstar Hpresent) as (st' & c & g' & Hs & Hg & Hc).
  unfold section_text. rewrite Hs. simpl. eexists. split; [done|].
  unfold group. rewrite Hg. simpl. by apply strip_content.
Qed.

(** *** Sections that are absent *)

(** The marker stands somewhere at the start of the text or of a line,
    after optional whitespace. *)
Definition marker_at_line_start (marker t : text) : Prop :=
  ∃ pre post, t = pre ++ marker ++ post ∧ at_line_start pre.

Lemma line_start_position n l s1 :
  s1 ∈ matches line_start (mkM n l None) →
  (n = 0%nat ∧ ∃ w, l = w ++ rest s1 ∧ blank w) ∨
  (∃ w, l = newline :: w ++ rest s1 ∧ blank w).
Proof.
  unfold line_start. cbn [matches].
  intros (s0 & Hws & Hstart)%list_elem_of_bind.
  apply elem_of_greedy in Hws as (w & Hw & Hblank & _ & _).
  apply elem_of_app in Hstart as [Hstart|Hstart].
  - cbn [matches pos] in Hstart.
    destruct (decide (n = 0%nat)); [|by apply elem_of_nil in Hstart].
    apply list_elem_of_singleton in Hstart as ->. left. eauto.
  - cbn [matches after_literal rest] in Hstart.
    destruct l as [|c l]; [by apply elem_of_nil in Hstart|].
    destruct (decide (newline = c)) as [<-|]; [|by apply elem_of_nil in Hstart].
    apply list_elem_of_singleton in Hstart as ->. simpl in Hw. right.
    exists w. by rewrite Hw.
Qed.

(** A pattern that asks for a literal at the start of a line only matches
    a text that has it there. *)
Lemma search_marker_at_line_start marker r t st :
  search (Seq line_start (Seq (Str marker) r)) t = Some st →
  marker_at_line_start marker t.
Proof.
  intros H. apply search_from_Some in H as (pre & suffix & -> & Hhead).
  apply head_elem_of in Hhead. cbn [matches] in Hhead.
  apply list_elem_of_bind in Hhead as (s1 & H2 & H1).
  apply list_elem_of_bind in H2 as (s2 & _ & Hlit).
  cbn [matches] in Hlit.
  destruct (after_literal marker (rest s1)) as [l'|] eqn:Hl;
    [|by apply elem_of_nil in Hlit].
  apply after_literal_Some in Hl.
  apply line_start_position in H1 as [(Hpos & w & -> & Hw)|(w & -> & Hw)].
  - destruct pre; [|done]. exists w, l'. rewrite Hl. split; [done|by left].
  - exists (pre ++ newline :: w), l'. rewrite Hl, <- app_assoc. split; [done|].
    right. eauto.
Qed.

(** The text of a section whose marker stands at no line start is not
    found. *)
Lemma section_text_absent marker t :
  ¬ marker_at_line_start marker t → section_text marker t = None.
Proof.
  intros Hno. unfold section_text.
  destruct (search (section_pattern marker) t) as [st|] eqn:Hs; [|done].
  exfalso. apply Hno. rewrite section_pattern_unfold in Hs.
  by apply search_marker_at_line_start in Hs.
Qed.

Lemma starred_markers :
  starred decision_marker ∧ starred reasoning_marker.
Proof. split; eexists; reflexivity. Qed.

(** A response with a Decision section and a Reasoning marker that
    nothing follows. *)
Definition response_without_reasoning_text : text :=
  of_string "**Decision:** go" ++ newline :: of_string "**Reasoning:**".

(** C9, as stated, fails: in this response the Confidence section is
    absent and the Decision and Reasoning markers are both present, at the
    start of a line; the parser returns confidence 0.5 and the decision
    text, but an empty reasoning. *)
Lemma c9_reasoning_marker_alone_gives_empty_text :
  let r := _parse_decision_from_response ascii_digit response_without_reasoning_text
             (mkContext "wf-1" None "general") 0 in
  marker_at_line_start reasoning_marker response_without_reasoning_text ∧
  decision r = of_string "go" ∧
  reasoning r = [] ∧
  confidence r = (1 # 2)%Q.
Proof.
  split; [|by vm_compute].
  exists (of_string "**Decision:** go" ++ [newline]), []. split; [by vm_compute|].
  right. exists (of_string "**Decision:** go"), []. split; [done|constructor].
Qed.

(** C9, amended: for every response text, a Confidence marker that
    stands at no line start gives confidence 0.5; a Decision or Reasoning
    section whose marker stands at the start of a line and is followed by
    at least one character that is not whitespace gives a non-empty text;
    a section whose marker stands at no line start gives the empty text
    or list.  The parser is a total function: it never fails. *)
Theorem parse_decision_tolerates_missing_sections
    (digit_value : char → option N) (t : text) (context : DecisionContext) (now : Z) :
  let r := _parse_decision_from_response digit_value t context now in
  (¬ marker_at_line_start confidence_marker t → confidence r = (1 # 2)%Q) ∧
  (section_present decision_marker t → decision r ≠ []) ∧
  (section_present reasoning_marker t → reasoning r ≠ []) ∧
  (¬ marker_at_line_start decision_marker t → decision r = []) ∧
  (¬ marker_at_line_start reasoning_marker t → reasoning r = []) ∧
  (¬ marker_at_line_start alternatives_marker t → alternatives r = []) ∧
  (¬ marker_at_line_start actions_marker t → actions r = []).
Proof.
  destruct starred_markers as [Hd Hr].
  cbn zeta. unfold _parse_decision_from_response. cbn [confidence decision reasoning
    alternatives actions].
  split_and!.
  - intros Hno.
    destruct (search (confidence_pattern digit_value) t) as [st|] eqn:Hs; [|done].
    exfalso. apply Hno. by apply search_marker_at_line_start in Hs.
  - intros Hp. destruct (section_text_present _ t Hd Hp) as (body & -> & Hne). done.
  - intros Hp. destruct (section_text_present _ t Hr Hp) as (body & -> & Hne). done.
  - intros Hno. by rewrite section_text_absent.
  - intros Hno. by rewrite section_text_absent.
  - intros Hno. unfold list_items. by rewrite section_text_absent.
  - intros Hno. unfold list_items. by rewrite section_text_absent.
Qed.

(** The amended statement at a response with Decision and Reasoning but
    no Confidence section. *)
Definition response_without_confidence : text :=
  of_string "**Decision:** approve the refund" ++ newline ::
  of_string "**Reasoning:** the customer is loyal".

Lemma parse_decision_witness :
  let r := _parse_decision_from_response ascii_digit response_without_confidence
             (mkContext "wf-1" None "general") 0 in
  confidence r = (1 # 2)%Q ∧ decision r ≠ [] ∧ reasoning r ≠ [].
Proof.
  destruct (parse_decision_tolerates_missing_sections ascii_digit
              response_without_confidence (mkContext "wf-1" None "general") 0)
    as (Hc & Hd & Hr & _).
  cbn zeta. split_and!.
  - by vm_compute.
  - apply Hd. exists [], (of_string " approve the refund" ++ newline ::
                          of_string "**Reasoning:** the customer is loyal").
    split; [by vm_compute|]. split; [left; constructor|].
    exists 97%N. split; [|done]. vm_compute.
    apply list_elem_of_further, list_elem_of_here.
  - apply Hr. exists (of_string "**Decision:** approve the refund" ++ [newline]),
                     (of_string " the customer is loyal").
    split; [by vm_compute|]. split.
    + right. exists (of_string "**Decision:** approve the refund"), [].
      split; [done|constructor].
    + exists 116%N. split; [|done]. vm_compute.
      apply list_elem_of_further, list_elem_of_here.
Defined.

End DecisionProps.
